(** * HMV fair-quote validation tool: a model of [app.py]

    The matching engine of [app.py] is embedded function by function:
    the text normalizer ([normalize_text]), the combined key, the greedy
    clusterer ([clusters], [key_to_rep]), the per-cluster statistics, the
    sequence-overlap score ([semantic_overlap], with the [SequenceMatcher]
    of Python's difflib it calls), the three tiers and the decision
    classifier ([get_decision_conclusion]).

    Conventions of the model.
    - Text is ASCII: a Python [str] is a [string]; the character classes
      of the [re] module ([\d], [\s], [\b]) and [str.upper], [str.strip],
      [str.split] are given on the 7-bit range, where Python's white space
      is 9-13, 28-31 and 32.
    - A spreadsheet cell is a [cell]: missing ([NaN]) or a string.
    - Hours, means, percentages and overlap scores are exact rationals
      ([Q]); a missing number (NaN) is [None].
    - A data frame is the list of its rows, in row order. *)

From Stdlib Require Import String Ascii QArith Qround Qabs Lqa DecimalString.
From stdpp Require Import base list gmap strings sorting.

Local Open Scope nat_scope.

(** ** Characters *)

Definition code (c : ascii) : nat := nat_of_ascii c.

Definition is_digit (c : ascii) : bool := (48 <=? code c) && (code c <=? 57).
Definition is_lower (c : ascii) : bool := (97 <=? code c) && (code c <=? 122).
Definition is_upper (c : ascii) : bool := (65 <=? code c) && (code c <=? 90).

(** [\w] *)
Definition is_word (c : ascii) : bool :=
  is_digit c || is_lower c || is_upper c || (code c =? 95).

(** [\s], and the white space of [str.strip] and [str.split] *)
Definition is_space (c : ascii) : bool :=
  ((9 <=? code c) && (code c <=? 13)) || ((28 <=? code c) && (code c <=? 31))
  || (code c =? 32).

(** [[-/]] *)
Definition is_sep (c : ascii) : bool := (code c =? 45) || (code c =? 47).

Definition upper_char (c : ascii) : ascii :=
  if is_lower c then ascii_of_nat (code c - 32) else c.

(** [str.upper] *)
Definition upper (s : list ascii) : list ascii := map upper_char s.

(** ** The regular expressions of [normalize_text]

    A pattern is a backtracking matcher in continuation-passing style: it
    receives the character before the current position (for [\b]), the
    rest of the subject, and the continuation that matches what follows;
    it answers with the text left after the whole match. *)

Definition cont : Type := option ascii -> list ascii -> option (list ascii).
Definition rx : Type := option ascii -> list ascii -> cont -> option (list ascii).

Definition word_opt (c : option ascii) : bool :=
  match c with Some c => is_word c | None => false end.

Definition rx_class (f : ascii -> bool) : rx := fun _ s k =>
  match s with
  | c :: s' => if f c then k (Some c) s' else None
  | [] => None
  end.

Definition rx_seq (r1 r2 : rx) : rx := fun p s k =>
  r1 p s (fun p' s' => r2 p' s' k).

(** Greedy [r?]: first with [r], then without. *)
Definition rx_opt (r : rx) : rx := fun p s k =>
  match r p s k with
  | Some rest => Some rest
  | None => k p s
  end.

(** [\b]: exactly one of the two neighbours is a word character. *)
Definition rx_wordb : rx := fun p s k =>
  if xorb (word_opt p) (word_opt (hd_error s)) then k p s else None.

(** Greedy [r{1,2}] and [r{2,4}]. *)
Definition rx_rep_1_2 (r : rx) : rx := rx_seq r (rx_opt r).
Definition rx_rep_2_4 (r : rx) : rx :=
  rx_seq r (rx_seq r (rx_opt (rx_seq r (rx_opt r)))).

(** [\b\d{1,2}[-/]\d{1,2}[-/]\d{2,4}\b] *)
Definition date_rx : rx :=
  rx_seq rx_wordb
 (rx_seq (rx_rep_1_2 (rx_class is_digit))
 (rx_seq (rx_class is_sep)
 (rx_seq (rx_rep_1_2 (rx_class is_digit))
 (rx_seq (rx_class is_sep)
 (rx_seq (rx_rep_2_4 (rx_class is_digit))
         rx_wordb))))).

(** The same pattern without its two [\b]: a date-like substring. *)
Definition date_like_rx : rx :=
  rx_seq (rx_rep_1_2 (rx_class is_digit))
 (rx_seq (rx_class is_sep)
 (rx_seq (rx_rep_1_2 (rx_class is_digit))
 (rx_seq (rx_class is_sep)
         (rx_rep_2_4 (rx_class is_digit))))).

(** Length of the match of [r] that starts here, if there is one. *)
Definition match_len (r : rx) (prev : option ascii) (s : list ascii) : option nat :=
  match r prev s (fun _ rest => Some rest) with
  | Some rest => Some (length s - length rest)
  | None => None
  end.

Definition date_match : option ascii -> list ascii -> option nat := match_len date_rx.

(** [re.sub(date, '', text)]: the subject is scanned from the left; where
    the pattern matches, the matched characters are dropped and the scan
    resumes behind them. [skip] counts the characters of the current match
    that are still to be dropped. *)
Fixpoint sub_dates (prev : option ascii) (skip : nat) (s : list ascii) : list ascii :=
  match s with
  | [] => []
  | c :: s' =>
      match skip with
      | S k => sub_dates (Some c) k s'
      | O =>
          match date_match prev s with
          | Some (S k) => sub_dates (Some c) k s'
          | _ => c :: sub_dates (Some c) 0 s'
          end
      end
  end.

(** [re.sub(r'\s+', ' ', text)]: every maximal run of white space becomes
    one space; [in_run] tells that the previous character was white space. *)
Fixpoint sub_spaces (in_run : bool) (s : list ascii) : list ascii :=
  match s with
  | [] => []
  | c :: s' =>
      if is_space c
      then if in_run then sub_spaces true s' else " "%char :: sub_spaces true s'
      else c :: sub_spaces false s'
  end.

Fixpoint lstrip (s : list ascii) : list ascii :=
  match s with
  | [] => []
  | c :: s' => if is_space c then lstrip s' else s
  end.

Fixpoint rstrip (s : list ascii) : list ascii :=
  match s with
  | [] => []
  | c :: s' =>
      match rstrip s' with
      | [] => if is_space c then [] else [c]
      | r => c :: r
      end
  end.

(** [str.strip()] *)
Definition strip (s : list ascii) : list ascii := rstrip (lstrip s).

(** A date-like substring somewhere in the text. *)
Fixpoint has_date_like (s : list ascii) : bool :=
  match s with
  | [] => false
  | _ :: s' =>
      match match_len date_like_rx None s with
      | Some _ => true
      | None => has_date_like s'
      end
  end.

(** ** Cells and [normalize_text] *)

Inductive cell : Type :=
| NaN
| Str (s : string).

(** [pd.isna] *)
Definition isna (x : cell) : bool :=
  match x with NaN => true | Str _ => false end.

(** [str(x)] *)
Definition py_str (x : cell) : string :=
  match x with NaN => "nan"%string | Str s => s end.

Definition normalize_chars (s : list ascii) : list ascii :=
  strip (sub_spaces false (sub_dates None 0 (upper s))).

Definition normalize_text (text : cell) : string :=
  if isna text then ""%string
  else string_of_list_ascii (normalize_chars (list_ascii_of_string (py_str text))).

(** [s.replace(old, '')]: the occurrences of [old] are removed from the
    left, without overlap; an empty [old] removes nothing. *)
Fixpoint starts_with (old s : list ascii) : bool :=
  match old, s with
  | [], _ => true
  | _ :: _, [] => false
  | a :: old', c :: s' => Ascii.eqb a c && starts_with old' s'
  end.

Fixpoint remove_all (old : list ascii) (skip : nat) (s : list ascii) : list ascii :=
  match s with
  | [] => []
  | c :: s' =>
      match skip with
      | S k => remove_all old k s'
      | O =>
          if starts_with old s
          then match length old with
               | S k => remove_all old k s'
               | O => c :: remove_all old 0 s'
               end
          else c :: remove_all old 0 s'
      end
  end.

Definition replace_marker (s : string) : string :=
  string_of_list_ascii
    (remove_all (list_ascii_of_string "(FOR REFERENCE ONLY)") 0 (list_ascii_of_string s)).

(** [str.split()]: the maximal runs of characters that are not white
    space; [cur] is the token being read, reversed. *)
Fixpoint split_from (cur : list ascii) (s : list ascii) : list string :=
  match s with
  | [] => match cur with [] => [] | _ => [string_of_list_ascii (rev cur)] end
  | c :: s' =>
      if is_space c
      then match cur with
           | [] => split_from [] s'
           | _ => string_of_list_ascii (rev cur) :: split_from [] s'
           end
      else split_from (c :: cur) s'
  end.

Definition split (s : string) : list string := split_from [] (list_ascii_of_string s).


(** ** [difflib.SequenceMatcher] on token lists

    [semantic_overlap] builds [SequenceMatcher(None, a.split(), b.split())]
    and asks for its [ratio()]. The matcher is modelled as CPython's
    difflib computes it, for [isjunk = None] and [autojunk = True]. *)

(** [__chain_b], first loop:
    [for i, elt in enumerate(b): b2j.setdefault(elt, []).append(i)] *)
Fixpoint chain_loop (b2j : gmap string (list nat)) (i : nat) (b : list string)
  : gmap string (list nat) :=
  match b with
  | [] => b2j
  | elt :: b' => chain_loop (<[elt := default [] (b2j !! elt) ++ [i]]> b2j) (S i) b'
  end.

(** A popular element has more than [n // 100 + 1] occurrences. *)
Definition popular (n : nat) (idxs : list nat) : Prop := n / 100 + 1 < length idxs.

#[global] Instance popular_dec n idxs : Decision (popular n idxs).
Proof. unfold popular. apply _. Defined.

(** [__chain_b]: with no junk test the junk set stays empty; when [b] has
    200 elements or more the popular ones are deleted from [b2j]. *)
Definition chain_b (b : list string) : gmap string (list nat) :=
  let b2j := chain_loop ∅ 0 b in
  let n := length b in
  if bool_decide (200 ≤ n)
  then filter (λ kv : string * list nat, ¬ popular n kv.2) b2j
  else b2j.

(** A match [(i, j, k)]: [a[i:i+k] == b[j:j+k]]. *)
Definition block : Type := nat * nat * nat.

(** [a[i] == b[j]], both in range. *)
Definition same_at (a b : list string) (i j : nat) : bool :=
  match a !! i, b !! j with
  | Some x, Some y => bool_decide (x = y)
  | _, _ => false
  end.

(** [j2len.get(j-1, 0)]; no key is negative, so for [j = 0] the default. *)
Definition j2lenget_pred (j2len : gmap nat nat) (j : nat) : nat :=
  match j with
  | O => 0
  | S j' => default 0 (j2len !! j')
  end.

Section find_longest_match.
Variables (a b : list string) (b2j : gmap string (list nat)).
Variables (alo ahi blo bhi : nat).

(** The loop [for j in b2j.get(a[i], nothing)] of row [i], with its
    [continue] below [blo] and its [break] from [bhi] on. *)
Fixpoint flm_row (i : nat) (j2len : gmap nat nat) (js : list nat)
    (newj2len : gmap nat nat) (best : block) : gmap nat nat * block :=
  match js with
  | [] => (newj2len, best)
  | j :: js' =>
      if bool_decide (j < blo) then flm_row i j2len js' newj2len best
      else if bool_decide (bhi ≤ j) then (newj2len, best)
      else
        let k := j2lenget_pred j2len j + 1 in
        let best' := if bool_decide (best.2 < k) then (i + 1 - k, j + 1 - k, k) else best in
        flm_row i j2len js' (<[j := k]> newj2len) best'
  end.

(** The loop [for i in range(alo, ahi)]; [todo] is the rest of the range. *)
Fixpoint flm_rows (todo : list nat) (j2len : gmap nat nat) (best : block) : block :=
  match todo with
  | [] => best
  | i :: is' =>
      let js := default [] (a !! i ≫= λ elt, b2j !! elt) in
      let '(newj2len, best') := flm_row i j2len js ∅ best in
      flm_rows is' newj2len best'
  end.

(** [while besti > alo and bestj > blo and a[besti-1] == b[bestj-1]] *)
Fixpoint extend_left (besti bestj bestsize : nat) {struct besti} : block :=
  match besti, bestj with
  | S i', S j' =>
      if bool_decide (alo < besti) && bool_decide (blo < bestj) && same_at a b i' j'
      then extend_left i' j' (bestsize + 1)
      else (besti, bestj, bestsize)
  | _, _ => (besti, bestj, bestsize)
  end.

(** [while besti+bestsize < ahi and bestj+bestsize < bhi and
    a[besti+bestsize] == b[bestj+bestsize]]; [n] bounds the number of
    rounds by [ahi - (besti+bestsize)], after which the test fails. *)
Fixpoint extend_right (n besti bestj bestsize : nat) : block :=
  match n with
  | O => (besti, bestj, bestsize)
  | S n' =>
      if bool_decide (besti + bestsize < ahi) && bool_decide (bestj + bestsize < bhi)
         && same_at a b (besti + bestsize) (bestj + bestsize)
      then extend_right n' besti bestj (bestsize + 1)
      else (besti, bestj, bestsize)
  end.

(** [find_longest_match(alo, ahi, blo, bhi)]. The two loops that extend
    the match by junk elements never run: the junk set is empty. *)
Definition find_longest_match : block :=
  let '(besti, bestj, bestsize) := flm_rows (seq alo (ahi - alo)) ∅ (alo, blo, 0) in
  let '(besti, bestj, bestsize) := extend_left besti bestj bestsize in
  extend_right (ahi - (besti + bestsize)) besti bestj bestsize.
End find_longest_match.

(** The [while queue] loop of [get_matching_blocks]. The Python list
    [queue] is used as a stack ([append], [pop]); here its top is the head.
    [None] when the rounds allowed by [fuel] do not empty the queue. *)
Fixpoint blocks_loop (a b : list string) (b2j : gmap string (list nat)) (fuel : nat)
    (queue : list (nat * nat * nat * nat)) (matching_blocks : list block)
  : option (list block) :=
  match queue with
  | [] => Some matching_blocks
  | (alo, ahi, blo, bhi) :: queue' =>
      match fuel with
      | O => None
      | S fuel' =>
          let '(i, j, k) := find_longest_match a b b2j alo ahi blo bhi in
          if bool_decide (k = 0) then blocks_loop a b b2j fuel' queue' matching_blocks
          else
            let q1 := if bool_decide (alo < i) && bool_decide (blo < j)
                      then (alo, i, blo, j) :: queue' else queue' in
            let q2 := if bool_decide (i + k < ahi) && bool_decide (j + k < bhi)
                      then (i + k, ahi, j + k, bhi) :: q1 else q1 in
            blocks_loop a b b2j fuel' q2 (matching_blocks ++ [(i, j, k)])
      end
  end.

(** Tuples compare lexicographically in [matching_blocks.sort()]. *)
Definition block_le (x y : block) : Prop :=
  x.1.1 < y.1.1 ∨ (x.1.1 = y.1.1 ∧ (x.1.2 < y.1.2 ∨ (x.1.2 = y.1.2 ∧ x.2 ≤ y.2))).

#[global] Instance block_le_dec x y : Decision (block_le x y).
Proof. unfold block_le. apply _. Defined.

(** The loop that merges adjacent blocks; [(i1, j1, k1)] is the block
    being grown. *)
Fixpoint collapse_adjacent (i1 j1 k1 : nat) (blocks non_adjacent : list block)
  : list block :=
  match blocks with
  | [] => if bool_decide (k1 = 0) then non_adjacent else non_adjacent ++ [(i1, j1, k1)]
  | (i2, j2, k2) :: blocks' =>
      if bool_decide (i1 + k1 = i2) && bool_decide (j1 + k1 = j2)
      then collapse_adjacent i1 j1 (k1 + k2) blocks' non_adjacent
      else collapse_adjacent i2 j2 k2 blocks'
             (if bool_decide (k1 = 0) then non_adjacent else non_adjacent ++ [(i1, j1, k1)])
  end.

(** The blocks found by the queue loop, [2 * len(a) + 1] rounds being
    enough to empty the queue ([blocks_loop_terminates]). *)
Definition raw_blocks (a b : list string) : list block :=
  default [] (blocks_loop a b (chain_b b) (2 * length a + 1) [(0, length a, 0, length b)] []).

(** [get_matching_blocks()]: found, sorted, merged, and closed by the
    sentinel [(la, lb, 0)]. *)
Definition get_matching_blocks (a b : list string) : list block :=
  collapse_adjacent 0 0 0 (merge_sort block_le (raw_blocks a b)) []
  ++ [(length a, length b, 0)].

(** [_calculate_ratio(matches, length)] *)
Definition calculate_ratio (matches len : nat) : Q :=
  match len with
  | O => 1
  | S _ => (2 * Z.of_nat matches # Pos.of_nat len)
  end.

(** [ratio()] *)
Definition ratio (a b : list string) : Q :=
  let matches := sum_list ((λ x : block, x.2) <$> get_matching_blocks a b) in
  calculate_ratio matches (length a + length b).

(** [semantic_overlap(a, b)] *)
Definition semantic_overlap (a b : string) : Q :=
  if bool_decide (a = ""%string) || bool_decide (b = ""%string) then 0
  else ratio (split a) (split b) * 100.


(** ** Numbers *)

(** Rounding to the nearest integer, halves to the even one, as
    [numpy.rint] and Python's float formatting round. *)
Definition round_half_even (x : Q) : Z :=
  let f := Qfloor x in
  match (x - inject_Z f ?= 1 # 2)%Q with
  | Lt => f
  | Gt => (f + 1)%Z
  | Eq => if Z.even f then f else (f + 1)%Z
  end.

(** [Series.round(2)] *)
Definition round2 (x : Q) : Q := (round_half_even (x * 100) # 100).

Definition Qlt_bool (x y : Q) : bool := negb (Qle_bool y x).

Definition dec (n : Z) : string := NilZero.string_of_uint (N.to_uint (Z.to_N n)).

(** [f"{x:.1f}"] *)
Definition format_1f (x : Q) : string :=
  let n := round_half_even (Qabs x * 10) in
  ((if Qlt_bool x 0 then "-" else "") +:+ dec (n / 10) +:+ "." +:+ dec (n mod 10))%string.

(** ** The historical data *)

(** A row of [hmv_data.xlsx], as [pd.read_excel] loads it. *)
Record record : Type := {
  Description : cell;
  Corrective_Action : cell;
  Total_Hours : option Q;
}.

(** A row of [df] once the preprocessing is done. *)
Record row : Type := {
  source : record;
  Normalized_Corrective_Action : string;
  Normalized_Discrepancy : string;
  Combined_Key : string;
  Cluster_Key : option string;
  Actual_Historic_Hours : option Q;
  Occurrences : option nat;
  Fair_Quote : option Q;
}.

Definition normalized_corrective_action (r : record) : string :=
  normalize_text (Corrective_Action r).

(** [normalize_text(str(x).replace("(FOR REFERENCE ONLY)", ""))] *)
Definition normalized_discrepancy (r : record) : string :=
  normalize_text (Str (replace_marker (py_str (Description r)))).

Definition combined_key (r : record) : string :=
  (normalized_discrepancy r +:+ " | " +:+ normalized_corrective_action r)%string.

(** [Series.unique()]: the distinct values in order of first occurrence. *)
Fixpoint unique_from (seen : list string) (l : list string) : list string :=
  match l with
  | [] => []
  | x :: l' =>
      if bool_decide (x ∈ seen) then unique_from seen l'
      else x :: unique_from (x :: seen) l'
  end.

Definition unique (l : list string) : list string := unique_from [] l.

(** ** Clustering

    [clusters] is a Python dict from a representative to the list of its
    keys; a dict keeps its entries in insertion order, so it is an
    association list. *)

Definition clusters_t : Type := list (string * list string).

(** [clusters[rep].append(key)] *)
Fixpoint dict_append (d : clusters_t) (rep key : string) : clusters_t :=
  match d with
  | [] => []
  | (r, lst) :: d' =>
      if bool_decide (r = rep) then (r, lst ++ [key]) :: d'
      else (r, lst) :: dict_append d' rep key
  end.

(** [clusters[key] = lst]: in place when [key] is there, else at the end. *)
Fixpoint dict_set (d : clusters_t) (key : string) (lst : list string) : clusters_t :=
  match d with
  | [] => [(key, lst)]
  | (r, l) :: d' =>
      if bool_decide (r = key) then (r, lst) :: d'
      else (r, l) :: dict_set d' key lst
  end.

Section clustering.
(** [fuzz.token_set_ratio] of fuzzywuzzy: an integer score. *)
Variable token_set_ratio : string → string → Z.

(** [for rep in clusters: if fuzz.token_set_ratio(key, rep) >= 90: ... break] *)
Definition first_match (key : string) (d : clusters_t) : option string :=
  find (λ rep, bool_decide (90 ≤ token_set_ratio key rep)%Z) (d.*1).

(** One round of [for key in df['Combined Key'].unique()]. *)
Definition cluster_step (d : clusters_t) (key : string) : clusters_t :=
  if bool_decide (key = ""%string) then d
  else match first_match key d with
       | Some rep => dict_append d rep key
       | None => dict_set d key [key]
       end.

Definition clusters (keys : list string) : clusters_t :=
  foldl cluster_step [] (unique keys).

(** [{k: r for r, lst in clusters.items() for k in lst}] *)
Definition key_to_rep_of (d : clusters_t) : gmap string string :=
  foldl (λ m '(r, lst), foldl (λ m k, <[k := r]> m) m lst) ∅ d.

Definition key_to_rep (keys : list string) : gmap string string :=
  key_to_rep_of (clusters keys).

(** ** Statistics *)

(** The values of [Total Hours] that are present in the group of
    cluster key [ck]; [keyed] pairs each record with its cluster key. *)
Definition group_hours (keyed : list (record * option string)) (ck : string) : list Q :=
  omap (λ x : record * option string,
          if bool_decide (x.2 = Some ck) then Total_Hours x.1 else None) keyed.

Definition Qsum (l : list Q) : Q := foldr Qplus 0%Q l.

(** ['mean']: over the values present; NaN when there is none. *)
Definition agg_mean (l : list Q) : option Q :=
  match l with
  | [] => None
  | _ => Some (Qsum l / inject_Z (Z.of_nat (length l)))%Q
  end.

(** ['count']: the number of values present. *)
Definition agg_count (l : list Q) : nat := length l.

(** The reference table: [df] after the merge with [hours] and the
    rounding. A left merge keeps the rows of [df] in their order; a row
    whose cluster key is NaN finds no group. *)
Definition build (data : list record) : list row :=
  let keys := combined_key <$> data in
  let k2r := key_to_rep keys in
  let keyed := (λ r, (r, k2r !! combined_key r)) <$> data in
  (λ x : record * option string,
     let g := group_hours keyed <$> x.2 in
     let mean := g ≫= agg_mean in
     {| source := x.1;
        Normalized_Corrective_Action := normalized_corrective_action x.1;
        Normalized_Discrepancy := normalized_discrepancy x.1;
        Combined_Key := combined_key x.1;
        Cluster_Key := x.2;
        Actual_Historic_Hours := mean;
        Occurrences := agg_count <$> g;
        Fair_Quote := round2 <$> mean |}) <$> keyed.
End clustering.

(** ** The decision classifier *)

(** [(conclusion, color, percent_display, diff_class)] *)
Definition decision : Type := string * string * string * string.

Definition no_data (fair : option Q) : bool :=
  match fair with
  | None => true
  | Some f => Qeq_bool f 0
  end.

Definition get_decision_conclusion (supplier : Q) (fair : option Q) : decision :=
  match fair with
  | Some f =>
      if Qeq_bool f 0
      then ("No historical data available — manual review recommended.", "#b0202e",
            "N/A (no historical data)", "diff-neutral")%string
      else
        let percent_diff := ((supplier - f) / f * 100)%Q in
        let diff_class :=
          if Qlt_bool percent_diff 0 then "diff-negative"
          else if Qle_bool (Qabs percent_diff) 5 then "diff-neutral"
          else "diff-positive" in
        let sign := if Qle_bool 0 percent_diff then "+" else "" in
        let percent_display := (sign +:+ format_1f percent_diff +:+ "%")%string in
        if Qlt_bool supplier f
        then ("FAIR QUOTE: Supplier below historic average. Consider approving.",
              "#22aa58", percent_display, diff_class)%string
        else if Qle_bool (Qabs (supplier - f) / f) (5 # 100)
        then ("IN EXPECTED RANGE (±5%). Consider approving.",
              "#222f3e", percent_display, diff_class)%string
        else ("HIGHER THAN HISTORIC — Needs BP review.",
              "#b0202e", percent_display, diff_class)%string
  | None =>
      ("No historical data available — manual review recommended.", "#b0202e",
       "N/A (no historical data)", "diff-neutral")%string
  end.

(** ** The query *)

(** A row with its [Overlap]. *)
Definition scored : Type := row * Q.

(** [sort_values(by='Overlap', ascending=False)]. The call names no
    [kind], so pandas sorts with its default, quicksort, for which it
    promises no order among equal values. The sort is therefore taken by
    what it does promise: the rows come back rearranged, by descending
    overlap. *)
Record sort_values : Type := {
  sorted_by_overlap : list scored → list scored;
  sort_permutation : ∀ l, sorted_by_overlap l ≡ₚ l;
  sort_descending : ∀ l, Sorted (λ x y : scored, (y.2 <= x.2)%Q) (sorted_by_overlap l);
}.

(** A sort that keeps rows of equal overlap in their order: insertion
    from the right, a row going behind the rows that are not below it. *)
Fixpoint insert_desc (x : scored) (l : list scored) : list scored :=
  match l with
  | [] => [x]
  | y :: l' => if Qle_bool x.2 y.2 then y :: insert_desc x l' else x :: l
  end.

Definition stable_sort_desc (l : list scored) : list scored :=
  foldl (λ acc x, insert_desc x acc) [] l.

(** A sort that turns the order of rows of equal overlap around. *)
Definition reversing_sort_desc (l : list scored) : list scored :=
  stable_sort_desc (reverse l).

Inductive tier : Type := EXACT | APPROXIMATE | WEAK.

(** What the page shows after the form. *)
Inductive page : Type :=
| Conclusion (t : tier) (chosen : row) (shown : list row) (d : decision)
| Nothing
| Prompt.

Section analysis.
Variable sv : sort_values.
Variable df : list row.

(** [total_similarity(row)] *)
Definition total_similarity (norm_disc norm_corr : string) (r : row) : Q :=
  ((semantic_overlap norm_disc (Normalized_Discrepancy r)
    + semantic_overlap norm_corr (Normalized_Corrective_Action r)) / 2)%Q.

Definition with_overlap (norm_disc norm_corr : string) : list scored :=
  (λ r, (r, total_similarity norm_disc norm_corr r)) <$> df.

Definition exact_rows (combined_input : string) : list row :=
  filter (λ r, Combined_Key r = combined_input) df.

Definition approx_rows (norm_disc norm_corr combined_input : string) : list scored :=
  filter (λ x : scored, Qle_bool 55 x.2 ∧ x.1.(Combined_Key) ≠ combined_input)
         (with_overlap norm_disc norm_corr).

Definition top2_rows (norm_disc norm_corr combined_input : string) : list scored :=
  take 2 (sorted_by_overlap sv (approx_rows norm_disc norm_corr combined_input)).

Definition closest_rows (norm_disc norm_corr : string) : list scored :=
  take 1 (sorted_by_overlap sv
            (filter (λ x : scored, Qlt_bool x.2 55) (with_overlap norm_disc norm_corr))).

(** The block under [# --- DECISION LOGIC ---]. *)
Definition analyse (submit : bool) (discrepancy_input corrective_input : string)
    (supplier_hours : Q) : page :=
  if submit && bool_decide (discrepancy_input ≠ ""%string)
     && bool_decide (corrective_input ≠ ""%string)
  then
    let norm_disc := normalize_text (Str (replace_marker discrepancy_input)) in
    let norm_corr := normalize_text (Str corrective_input) in
    let combined_input := (norm_disc +:+ " | " +:+ norm_corr)%string in
    let exact := exact_rows combined_input in
    let top2 := top2_rows norm_disc norm_corr combined_input in
    let closest := closest_rows norm_disc norm_corr in
    match exact, top2, closest with
    | r :: _, _, _ =>
        Conclusion EXACT r exact (get_decision_conclusion supplier_hours (Fair_Quote r))
    | [], x :: _, _ =>
        Conclusion APPROXIMATE x.1 (top2.*1)
          (get_decision_conclusion supplier_hours (Fair_Quote x.1))
    | [], [], x :: _ =>
        Conclusion WEAK x.1 [x.1] (get_decision_conclusion supplier_hours (Fair_Quote x.1))
    | [], [], [] => Nothing
    end
  else Prompt.
End analysis.


(** ** The classification in the words of the specification

    [classify(supplier_hours, fair_hours)] as section 4.5 words it: no
    data when the fair hours are absent or zero, approval below the fair
    hours, the expected range when the absolute percent deviation is at
    most 5, review otherwise. *)
Definition classify_words (supplier : Q) (fair : option Q) : string :=
  match fair with
  | None => "No historical data available — manual review recommended."
  | Some f =>
      if Qeq_bool f 0
      then "No historical data available — manual review recommended."
      else if Qlt_bool supplier f
      then "FAIR QUOTE: Supplier below historic average. Consider approving."
      else if Qle_bool (Qabs ((supplier - f) / f * 100)) 5
      then "IN EXPECTED RANGE (±5%). Consider approving."
      else "HIGHER THAN HISTORIC — Needs BP review."
  end%string.

(** The display of a percentage with its sign and one decimal. *)
Definition signed_1f (x : Q) : string :=
  let n := round_half_even (Qabs x * 10) in
  ((if Qle_bool 0 x then "+" else "-") +:+ dec (n / 10) +:+ "." +:+ dec (n mod 10) +:+ "%")%string.


(** The fair hours of a cluster are a mean of hours: absent, or not
    negative when no hour is. *)
Definition fair_not_negative (fair : option Q) : Prop :=
  match fair with
  | None => True
  | Some f => (0 <= f)%Q
  end.


(** ** Data of the examples *)

(** A token-set ratio for the examples: 100 on equal strings, else 0. *)
Definition equal_ratio (a b : string) : Z :=
  if bool_decide (a = b) then 100%Z else 0%Z.

Definition crack (hours : option Q) : record :=
  {| Description := Str "Crack found in skin panel";
     Corrective_Action := Str "Replaced panel";
     Total_Hours := hours |}.

(** The records of the data whose combined key maps to the cluster of
    representative [ck]. *)
Definition cluster_records (token_set_ratio : string → string → Z)
    (data : list record) (ck : string) : list record :=
  filter (λ r, key_to_rep token_set_ratio (combined_key <$> data) !! combined_key r = Some ck)
         data.


(** The tier of a page, when one fired. *)
Definition tier_of (p : page) : option tier :=
  match p with
  | Conclusion t _ _ _ => Some t
  | Nothing | Prompt => None
  end.

(** The normalized query of the form's two texts. *)
Definition query_disc (discrepancy_input : string) : string :=
  normalize_text (Str (replace_marker discrepancy_input)).
Definition query_corr (corrective_input : string) : string :=
  normalize_text (Str corrective_input).
Definition query_key (discrepancy_input corrective_input : string) : string :=
  (query_disc discrepancy_input +:+ " | " +:+ query_corr corrective_input)%string.

(** Rows and a query for the examples. *)
Definition example_row (disc corr : string) (fair : Q) : row :=
  {| source := {| Description := Str disc; Corrective_Action := Str corr;
                  Total_Hours := Some fair |};
     Normalized_Corrective_Action := corr;
     Normalized_Discrepancy := disc;
     Combined_Key := (disc +:+ " | " +:+ corr)%string;
     Cluster_Key := Some (disc +:+ " | " +:+ corr)%string;
     Actual_Historic_Hours := Some fair;
     Occurrences := Some 1;
     Fair_Quote := Some fair |}.


(** The keys held by the clusters of a dict, cluster after cluster. *)
Fixpoint members (d : clusters_t) : list string :=
  match d with
  | [] => []
  | (_, lst) :: d' => lst ++ members d'
  end.


(** ** Shapes of text, for the statements on [normalize_text] *)

(** The text behind a match: none, or starting with a character outside
    [\w], as the closing [\b] of the date pattern asks after a digit. *)
Definition boundary (s : list ascii) : Prop := word_opt (hd_error s) = false.

(** In a matched date every character outside [\w] (a separator) is
    followed by one inside (a digit), and the last one is a digit. *)
Fixpoint chained (w : list ascii) : bool :=
  match w with
  | [] => false
  | [c] => is_word c
  | c :: (c' :: _) as w' => (is_word c || is_word c') && chained w'
  end.

(** No position of the text, the character [prev] before it, starts a
    match of the date pattern. *)
Fixpoint no_date (prev : option ascii) (s : list ascii) : Prop :=
  match s with
  | [] => True
  | c :: s' => date_match prev s = None ∧ no_date (Some c) s'
  end.


(** White space as [re.sub(r'\s+', ' ', ...)] leaves it: single spaces,
    none of them behind another; [after_space] tells that the character
    before the text is white space. *)
Fixpoint single_spaced (after_space : bool) (s : list ascii) : Prop :=
  match s with
  | [] => True
  | c :: s' =>
      if is_space c
      then c = " "%char ∧ after_space = false ∧ single_spaced true s'
      else single_spaced false s'
  end.

(** A text that does not start with white space. *)
Definition starts_black (s : list ascii) : Prop :=
  match s with
  | [] => True
  | c :: _ => is_space c = false
  end.

(** Bounds kept by [find_longest_match(alo, ahi, blo, bhi)]: a row of
    lengths [j2len] built up to row [i], and a best match that ends before
    row [hi]. *)
Definition row_ok (alo blo : nat) (i : nat) (m : gmap nat nat) : Prop :=
  ∀ j k, m !! j = Some k → blo ≤ j ∧ k + alo ≤ i ∧ k + blo ≤ j + 1.

Definition best_ok (alo blo bhi : nat) (hi : nat) (best : block) : Prop :=
  alo ≤ best.1.1 ∧ best.1.1 + best.2 ≤ hi ∧ blo ≤ best.1.2 ∧ best.1.2 + best.2 ≤ bhi.

(** Sum of the sizes of a list of blocks. *)
Definition size_sum (bl : list block) : nat := sum_list ((λ x : block, x.2) <$> bl).

(** A queue of [get_matching_blocks] holds well-formed rectangles. *)
Definition queue_ok (queue : list (nat * nat * nat * nat)) : Prop :=
  Forall (λ q, q.1.1.1 ≤ q.1.1.2 ∧ q.1.2 ≤ q.2) queue.

Definition span_a (queue : list (nat * nat * nat * nat)) : nat :=
  sum_list ((λ q, q.1.1.2 - q.1.1.1) <$> queue).

Definition span_b (queue : list (nat * nat * nat * nat)) : nat :=
  sum_list ((λ q, q.2 - q.1.2) <$> queue).

(** Rounds of the queue loop that a queue can still cause. *)
Definition rounds (queue : list (nat * nat * nat * nat)) : nat :=
  sum_list ((λ q, 2 * (q.1.1.2 - q.1.1.1) + 1) <$> queue).
(** The positions of [x] in [l], counted from [i], in ascending order. *)
Fixpoint positions (x : string) (i : nat) (l : list string) : list nat :=
  match l with
  | [] => []
  | y :: l' => if decide (x = y) then i :: positions x (S i) l' else positions x (S i) l'
  end.

(** The [k] elements of [a] before position [r] are all keys of [b2j]. *)
Definition nonpop_before (a : list string) (b2j : gmap string (list nat)) (r k : nat)
  : Prop :=
  k ≤ r ∧ ∀ t, t < k → ∃ x, a !! (r - 1 - t) = Some x ∧ is_Some (b2j !! x).

(** The state between two rows of [find_longest_match] on two equal
    sequences: the lengths in [j2len] are runs of indexed elements, the
    diagonal entry is the whole run, and the best match lies on the diagonal
    and is at least as long as every run met so far. *)
Definition diag_best (a : list string) (r : nat) (best : block) : Prop :=
  best.1.1 = best.1.2 ∧ best.1.1 + best.2 ≤ r
  ∧ ∀ i k, i ≤ r → nonpop_before a (chain_b a) i k → k ≤ best.2.

Definition j2len_runs (a : list string) (r : nat) (j2len : gmap nat nat) : Prop :=
  ∀ j k, j2len !! j = Some k →
    nonpop_before a (chain_b a) r k ∧ nonpop_before a (chain_b a) (S j) k.

Definition diag_done (a : list string) (i : nat) (newj2len : gmap nat nat) (best : block)
  : Prop :=
  ∀ k, nonpop_before a (chain_b a) (S i) k → k ≤ default 0 (newj2len !! i) ∧ k ≤ best.2.

(* END-DEFINITIONS *)

Example normalize_seal :
  normalize_text (Str "Replaced seal on 3/4/2022") = "REPLACED SEAL ON"%string.
Proof. reflexivity. Qed.

(** ** The decision classifier *)

Lemma Qlt_bool_iff x y : Qlt_bool x y = true ↔ (x < y)%Q.
Proof.
  unfold Qlt_bool. rewrite negb_true_iff, <- not_true_iff_false, Qle_bool_iff.
  split; [apply Qnot_le_lt | apply Qlt_not_le].
Qed.

Lemma Qlt_bool_false x y : Qlt_bool x y = false ↔ (y <= x)%Q.
Proof. unfold Qlt_bool. rewrite negb_false_iff. apply Qle_bool_iff. Qed.

Lemma Qle_bool_false x y : Qle_bool x y = false ↔ (y < x)%Q.
Proof.
  rewrite <- not_true_iff_false, Qle_bool_iff.
  split; [apply Qnot_le_lt | apply Qlt_not_le].
Qed.

Lemma Qabs_percent (x f : Q) :
  (0 < f)%Q → (Qabs (x / f * 100) == Qabs x / f * 100)%Q.
Proof.
  intros Hf. unfold Qdiv. rewrite !Qabs_Qmult.
  rewrite (Qabs_pos (/ f)), (Qabs_pos 100); [reflexivity | discriminate |].
  apply Qlt_le_weak, Qinv_lt_0_compat, Hf.
Qed.

Lemma in_range_agree (s f : Q) :
  (0 < f)%Q →
  Qle_bool (Qabs (s - f) / f) (5 # 100) = Qle_bool (Qabs ((s - f) / f * 100)) 5.
Proof.
  intros Hf. apply eq_true_iff_eq. rewrite !Qle_bool_iff, (Qabs_percent _ _ Hf).
  set (t := (Qabs (s - f) / f)%Q). split; intros; lra.
Qed.

Lemma string_app_assoc (s1 s2 s3 : string) :
  ((s1 +:+ s2) +:+ s3 = s1 +:+ s2 +:+ s3)%string.
Proof.
  induction s1 as [|c s1 IH]; [reflexivity|].
  change (String c ((s1 +:+ s2) +:+ s3) = String c (s1 +:+ s2 +:+ s3))%string.
  by rewrite IH.
Qed.

Lemma signed_display (x : Q) :
  ((if Qle_bool 0 x then "+" else "") +:+ format_1f x +:+ "%")%string = signed_1f x.
Proof.
  unfold signed_1f, format_1f.
  destruct (Qle_bool 0 x) eqn:Hx.
  - assert (Qlt_bool x 0 = false) as -> by (apply Qlt_bool_false, Qle_bool_iff, Hx).
    by rewrite !string_app_assoc.
  - assert (Qlt_bool x 0 = true) as -> by (apply Qlt_bool_iff, Qle_bool_false, Hx).
    by rewrite !string_app_assoc.
Qed.




(** ** Keys and statistics *)

Lemma combined_key_not_empty (r : record) : combined_key r ≠ ""%string.
Proof.
  unfold combined_key. destruct (normalized_discrepancy r); discriminate.
Qed.

(** C10: a record whose description and corrective action are both
    missing does not get the key " | ". [str(x)] turns the missing
    description into "nan" before [normalize_text] can test [pd.isna], so
    the key is "NAN | "; the missing corrective action, passed to
    [normalize_text] as it is, does become the empty string. *)
Theorem missing_fields_key (hours : option Q) :
  let r := {| Description := NaN; Corrective_Action := NaN; Total_Hours := hours |} in
  normalized_corrective_action r = ""%string
  ∧ normalized_discrepancy r = "NAN"%string
  ∧ combined_key r = "NAN | "%string
  ∧ combined_key r ≠ " | "%string.
Proof. repeat split; vm_compute; congruence. Qed.

Lemma round_half_even_close (x : Q) :
  (Qabs (inject_Z (round_half_even x) - x) <= 1 # 2)%Q.
Proof.
  unfold round_half_even.
  pose proof (Qfloor_le x) as Hlo. pose proof (Qlt_floor x) as Hhi.
  rewrite inject_Z_plus in Hhi. set (f := Qfloor x) in *.
  apply Qabs_Qle_condition.
  destruct (Qcompare_spec (x - inject_Z f) (1 # 2)) as [He|Hl|Hg].
  - destruct (Z.even f); rewrite ?inject_Z_plus;
      change (inject_Z 1) with 1%Q in *; split; lra.
  - change (inject_Z 1) with 1%Q in *. split; lra.
  - rewrite inject_Z_plus. change (inject_Z 1) with 1%Q in *. split; lra.
Qed.

Lemma round2_close (m : Q) : (Qabs (round2 m - m) <= 1 # 200)%Q.
Proof.
  pose proof (round_half_even_close (m * 100)) as H.
  apply Qabs_Qle_condition in H. apply Qabs_Qle_condition.
  unfold round2. rewrite (Qmake_Qdiv _ 100).
  set (n := inject_Z (round_half_even (m * 100))) in *.
  change (inject_Z (Z.pos 100)) with 100%Q. clearbody n.
  assert (n / 100 == n * (1 # 100))%Q as -> by field.
  split; lra.
Qed.

Lemma agg_mean_spec (l : list Q) (m : Q) :
  agg_mean l = Some m → (m * inject_Z (Z.of_nat (agg_count l)) == Qsum l)%Q.
Proof.
  unfold agg_mean, agg_count. destruct l as [|x l]; [done|].
  intros [= <-]. change (length (x :: l)) with (S (length l)).
  set (d := inject_Z (Z.of_nat (S (length l)))).
  assert (~ d == 0)%Q as Hd.
  { unfold d. change 0%Q with (inject_Z 0). rewrite inject_Z_injective.
    lia. }
  change (Qsum (x :: l)) with (x + Qsum l)%Q.
  generalize dependent d. generalize (x + Qsum l)%Q. intros s d Hd. by field.
Qed.

Lemma group_hours_keyed (tsr : string → string → Z) (data : list record) (ck : string) :
  group_hours
    ((λ r, (r, key_to_rep tsr (combined_key <$> data) !! combined_key r)) <$> data) ck
  = omap Total_Hours (cluster_records tsr data ck).
Proof.
  unfold group_hours, cluster_records.
  generalize (key_to_rep tsr (combined_key <$> data)). intros m.
  induction data as [|r data IH]; [done|].
  rewrite fmap_cons, filter_cons. cbn [omap list_omap]. simpl.
  rewrite IH. case_bool_decide as Hk.
  - rewrite decide_True by done. done.
  - rewrite decide_False by done. done.
Qed.




(** ** Sorting by overlap *)

Definition overlap_ge (x y : scored) : Prop := (y.2 <= x.2)%Q.

#[local] Instance overlap_ge_trans : Transitive overlap_ge.
Proof. intros x y z Hxy Hyz. unfold overlap_ge in *. lra. Qed.

Lemma insert_desc_perm (x : scored) (l : list scored) : insert_desc x l ≡ₚ x :: l.
Proof.
  induction l as [|y l IH]; simpl; [done|].
  destruct (Qle_bool x.2 y.2); [|done].
  rewrite IH. apply Permutation_swap.
Qed.

Lemma insert_desc_sorted (x : scored) (l : list scored) :
  StronglySorted overlap_ge l → StronglySorted overlap_ge (insert_desc x l).
Proof.
  induction 1 as [|y l Hl IH Hy]; simpl.
  - repeat constructor.
  - destruct (Qle_bool x.2 y.2) eqn:Hxy.
    + constructor; [done|]. rewrite insert_desc_perm. constructor; [|done].
      by apply Qle_bool_iff.
    + apply Qle_bool_false in Hxy. constructor; [by constructor|].
      constructor; [unfold overlap_ge; lra|].
      eapply Forall_impl; [exact Hy|]. unfold overlap_ge. intros z Hz. lra.
Qed.

Lemma foldl_insert_desc (acc l : list scored) :
  foldl (λ acc x, insert_desc x acc) acc l ≡ₚ acc ++ l
  ∧ (StronglySorted overlap_ge acc →
     StronglySorted overlap_ge (foldl (λ acc x, insert_desc x acc) acc l)).
Proof.
  revert acc. induction l as [|x l IH]; intros acc; simpl.
  - by rewrite app_nil_r.
  - destruct (IH (insert_desc x acc)) as [Hp Hs]. split.
    + rewrite Hp, insert_desc_perm. simpl. apply Permutation_middle.
    + intros Hacc. by apply Hs, insert_desc_sorted.
Qed.

Lemma stable_sort_desc_perm (l : list scored) : stable_sort_desc l ≡ₚ l.
Proof. apply (foldl_insert_desc [] l). Qed.

Lemma stable_sort_desc_sorted (l : list scored) :
  Sorted (λ x y : scored, (y.2 <= x.2)%Q) (stable_sort_desc l).
Proof.
  apply (StronglySorted_Sorted (R := overlap_ge)), (foldl_insert_desc [] l). constructor.
Qed.

(** [sort_values] with a stable kind. *)
Definition stable_sort_values : sort_values :=
  {| sorted_by_overlap := stable_sort_desc;
     sort_permutation := stable_sort_desc_perm;
     sort_descending := stable_sort_desc_sorted |}.

Lemma reversing_sort_desc_perm (l : list scored) : reversing_sort_desc l ≡ₚ l.
Proof. unfold reversing_sort_desc. by rewrite stable_sort_desc_perm, reverse_Permutation. Qed.

(** A sort as good for the call in [app.py], with the other order among
    equal overlaps. *)
Definition reversing_sort_values : sort_values :=
  {| sorted_by_overlap := reversing_sort_desc;
     sort_permutation := reversing_sort_desc_perm;
     sort_descending := λ l, stable_sort_desc_sorted (reverse l) |}.

(** The rows ahead in a descending sort are not below those behind. *)
Lemma take_sorted_max (sv : sort_values) (l : list scored) (n : nat) :
  take n (sorted_by_overlap sv l) ++ drop n (sorted_by_overlap sv l) ≡ₚ l
  ∧ ∀ x y, x ∈ take n (sorted_by_overlap sv l) →
           y ∈ drop n (sorted_by_overlap sv l) → (y.2 <= x.2)%Q.
Proof.
  split; [by rewrite take_drop, sort_permutation|].
  pose proof (sort_descending sv l) as Hs.
  change (Sorted overlap_ge (sorted_by_overlap sv l)) in Hs.
  apply Sorted_StronglySorted in Hs; [|apply _].
  revert Hs. generalize (sorted_by_overlap sv l). intros s Hs. revert n.
  induction Hs as [|z s Hs IH Hz]; intros n x y Hx Hy.
  - rewrite take_nil in Hx. by apply elem_of_nil in Hx.
  - destruct n as [|n]; [by apply elem_of_nil in Hx|].
    simpl in Hx, Hy. apply elem_of_cons in Hx as [->|Hx].
    + rewrite Forall_forall in Hz. by apply Hz, (subseteq_drop n s).
    + eauto.
Qed.

(** ** The three tiers *)

Lemma nil_iff_no_elem {A} (l : list A) : l = [] ↔ ∀ x, x ∉ l.
Proof.
  split; [intros -> x; apply not_elem_of_nil | apply elem_of_nil_inv].
Qed.

Lemma take_nil_iff {A} (n : nat) (l : list A) : take (S n) l = [] ↔ l = [].
Proof. destruct l; simpl; split; congruence. Qed.

Lemma sorted_nil_iff (sv : sort_values) (l : list scored) :
  sorted_by_overlap sv l = [] ↔ l = [].
Proof.
  split; intros H.
  - apply Permutation_nil_r. rewrite <- (sort_permutation sv l), H. done.
  - apply Permutation_nil_r. rewrite (sort_permutation sv l), H. done.
Qed.

Section tiers.
Context (sv : sort_values) (df : list row) (nd nc ci : string).

Lemma exact_rows_spec r : r ∈ exact_rows df ci ↔ r ∈ df ∧ Combined_Key r = ci.
Proof. unfold exact_rows. rewrite list_elem_of_filter. tauto. Qed.

Lemma with_overlap_spec x :
  x ∈ with_overlap df nd nc ↔ ∃ r, r ∈ df ∧ x = (r, total_similarity nd nc r).
Proof. unfold with_overlap. rewrite list_elem_of_fmap. naive_solver. Qed.

Lemma approx_rows_spec x :
  x ∈ approx_rows df nd nc ci ↔
  ∃ r, r ∈ df ∧ x = (r, total_similarity nd nc r)
       ∧ (55 <= total_similarity nd nc r)%Q ∧ Combined_Key r ≠ ci.
Proof.
  unfold approx_rows. rewrite list_elem_of_filter, with_overlap_spec.
  rewrite Is_true_true, Qle_bool_iff. split.
  - intros [[H1 H2] (r & Hr & ->)]. exists r. auto.
  - intros (r & Hr & -> & H1 & H2). split; [auto|]. by exists r.
Qed.

Lemma weak_rows_spec x :
  x ∈ filter (λ x : scored, Qlt_bool x.2 55) (with_overlap df nd nc) ↔
  ∃ r, r ∈ df ∧ x = (r, total_similarity nd nc r)
       ∧ (total_similarity nd nc r < 55)%Q.
Proof.
  rewrite list_elem_of_filter, with_overlap_spec.
  rewrite Is_true_true, Qlt_bool_iff. split.
  - intros [H1 (r & Hr & ->)]. exists r. auto.
  - intros (r & Hr & -> & H1). split; [auto|]. by exists r.
Qed.

Lemma exact_rows_nil :
  exact_rows df ci = [] ↔ ¬ ∃ r, r ∈ df ∧ Combined_Key r = ci.
Proof.
  rewrite nil_iff_no_elem. setoid_rewrite exact_rows_spec. naive_solver.
Qed.

Lemma top2_rows_nil :
  top2_rows sv df nd nc ci = [] ↔
  ¬ ∃ r, r ∈ df ∧ Combined_Key r ≠ ci ∧ (55 <= total_similarity nd nc r)%Q.
Proof.
  unfold top2_rows. rewrite take_nil_iff, sorted_nil_iff, nil_iff_no_elem.
  setoid_rewrite approx_rows_spec. naive_solver.
Qed.

Lemma closest_rows_nil :
  closest_rows sv df nd nc = [] ↔
  ¬ ∃ r, r ∈ df ∧ (total_similarity nd nc r < 55)%Q.
Proof.
  unfold closest_rows. rewrite take_nil_iff, sorted_nil_iff, nil_iff_no_elem.
  setoid_rewrite weak_rows_spec. naive_solver.
Qed.

(** The row ahead of a sorted selection is in the selection and not
    below any row of it. *)
Lemma sorted_head_max (l : list scored) (n : nat) x rest :
  take (S n) (sorted_by_overlap sv l) = x :: rest →
  x ∈ l ∧ ∀ y, y ∈ l → (y.2 <= x.2)%Q.
Proof.
  intros Ht.
  destruct (sorted_by_overlap sv l) as [|z s] eqn:Hs; [done|].
  simpl in Ht. injection Ht as -> _.
  assert (Hin : ∀ y, y ∈ l ↔ y ∈ x :: s).
  { intros y. by rewrite <- Hs, (sort_permutation sv l). }
  split; [apply Hin; left|].
  pose proof (take_sorted_max sv l 1) as [_ Hmax]. rewrite Hs in Hmax.
  simpl in Hmax. rewrite take_0, drop_0 in Hmax.
  intros y [->|Hy]%Hin%elem_of_cons; [lra|].
  apply Hmax; [left | done].
Qed.
End tiers.

Lemma analyse_submitted (sv : sort_values) (df : list row) (d c : string) (s : Q) :
  d ≠ ""%string → c ≠ ""%string →
  analyse sv df true d c s =
    match exact_rows df (query_key d c),
          top2_rows sv df (query_disc d) (query_corr c) (query_key d c),
          closest_rows sv df (query_disc d) (query_corr c) with
    | r :: _, _, _ =>
        Conclusion EXACT r (exact_rows df (query_key d c))
          (get_decision_conclusion s (Fair_Quote r))
    | [], x :: _, _ =>
        Conclusion APPROXIMATE x.1
          ((top2_rows sv df (query_disc d) (query_corr c) (query_key d c)).*1)
          (get_decision_conclusion s (Fair_Quote x.1))
    | [], [], x :: _ =>
        Conclusion WEAK x.1 [x.1] (get_decision_conclusion s (Fair_Quote x.1))
    | [], [], [] => Nothing
    end.
Proof.
  intros Hd Hc. unfold analyse.
  rewrite !bool_decide_eq_true_2 by done. reflexivity.
Qed.







(** ** Distinct keys *)

Lemma unique_from_spec (seen l : list string) (x : string) :
  x ∈ unique_from seen l ↔ x ∈ l ∧ x ∉ seen.
Proof.
  revert seen. induction l as [|y l IH]; intros seen; csimpl.
  - rewrite elem_of_nil. tauto.
  - case_bool_decide as Hy.
    + rewrite IH, elem_of_cons. split; [tauto|]. intros [[->|?] ?]; tauto.
    + rewrite !elem_of_cons, IH, elem_of_cons.
      destruct (decide (x = y)) as [->|Hxy]; tauto.
Qed.

Lemma unique_from_NoDup (seen l : list string) : NoDup (unique_from seen l).
Proof.
  revert seen. induction l as [|y l IH]; intros seen; csimpl; [constructor|].
  case_bool_decide; [done|]. apply NoDup_cons. split; [|done].
  rewrite unique_from_spec, elem_of_cons. tauto.
Qed.

Lemma unique_from_ext (s1 s2 l : list string) :
  (∀ x, x ∈ s1 ↔ x ∈ s2) → unique_from s1 l = unique_from s2 l.
Proof.
  revert s1 s2. induction l as [|y l IH]; intros s1 s2 H; csimpl; [done|].
  rewrite (bool_decide_ext (y ∈ s1) (y ∈ s2)) by done.
  case_bool_decide; [by apply IH|]. f_equal. apply IH.
  intros x. rewrite !elem_of_cons, H. done.
Qed.

Lemma unique_from_app (seen l1 l2 : list string) :
  unique_from seen (l1 ++ l2) = unique_from seen l1 ++ unique_from (l1 ++ seen) l2.
Proof.
  revert seen. induction l1 as [|y l1 IH]; intros seen; csimpl; [done|].
  case_bool_decide as Hy.
  - rewrite IH. f_equal. apply unique_from_ext. intros x.
    rewrite elem_of_cons, !elem_of_app. split; [tauto|]. intros [->|?]; tauto.
  - rewrite IH. csimpl. do 2 f_equal. apply unique_from_ext. intros x.
    rewrite elem_of_cons, !elem_of_app, elem_of_cons. tauto.
Qed.

Lemma unique_NoDup_id (l : list string) : NoDup l → unique l = l.
Proof.
  unfold unique. intros Hl.
  assert (H : ∀ seen, (∀ x, x ∈ l → x ∉ seen) → unique_from seen l = l).
  { induction Hl as [|y l Hy Hl IH]; intros seen Hs; csimpl; [done|].
    rewrite bool_decide_eq_false_2 by (apply Hs; left). f_equal. apply IH.
    intros x Hx [->|?]%elem_of_cons; [done|]. apply (Hs x); [by right|done]. }
  apply H. intros x _. apply not_elem_of_nil.
Qed.

(** ** The dict of clusters *)

Lemma dict_append_fst (d : clusters_t) (rep key : string) :
  (dict_append d rep key).*1 = d.*1.
Proof.
  induction d as [|[r lst] d IH]; csimpl; [done|].
  case_bool_decide; csimpl; [done | by rewrite IH].
Qed.

Lemma dict_append_members (d : clusters_t) (rep key : string) :
  rep ∈ d.*1 → members (dict_append d rep key) ≡ₚ key :: members d.
Proof.
  induction d as [|[r lst] d IH]; csimpl; [by intros ?%elem_of_nil|].
  intros Hrep. case_bool_decide as Hr; csimpl.
  - rewrite <- app_assoc. csimpl. by rewrite <- Permutation_middle.
  - apply elem_of_cons in Hrep as [->|Hrep]; [done|].
    rewrite IH by done. by rewrite <- Permutation_middle.
Qed.

Lemma dict_append_elem (d : clusters_t) (rep key r : string) (lst : list string) :
  (r, lst) ∈ dict_append d rep key →
  (r, lst) ∈ d ∨ ∃ lst0, (r, lst0) ∈ d ∧ r = rep ∧ lst = lst0 ++ [key].
Proof.
  induction d as [|[r0 lst0] d IH]; csimpl; [by intros ?%elem_of_nil|].
  case_bool_decide as Hr; intros [H|H]%elem_of_cons.
  - injection H as -> ->. right. exists lst0. split_and!; [left|done..].
  - left. by right.
  - left. rewrite H. left.
  - destruct (IH H) as [?|(l0 & ? & ? & ?)]; [left; by right|].
    right. exists l0. split_and!; [by right|done..].
Qed.

Lemma dict_append_keeps (d : clusters_t) (rep key r k : string) (lst : list string) :
  (r, lst) ∈ d → k ∈ lst → ∃ lst', (r, lst') ∈ dict_append d rep key ∧ k ∈ lst'.
Proof.
  induction d as [|[r0 lst0] d IH]; csimpl; [by intros ?%elem_of_nil|].
  intros [H|H]%elem_of_cons Hk.
  - injection H as -> ->. case_bool_decide.
    + exists (lst0 ++ [key]). split; [left|]. apply elem_of_app. by left.
    + exists lst0. split; [left|done].
  - case_bool_decide.
    + exists lst. split; [by right|done].
    + destruct (IH H Hk) as (lst' & ? & ?). exists lst'. split; [by right|done].
Qed.

Lemma dict_append_joins (d : clusters_t) (rep key : string) :
  rep ∈ d.*1 → ∃ lst, (rep, lst) ∈ dict_append d rep key ∧ key ∈ lst.
Proof.
  induction d as [|[r lst] d IH]; csimpl; [by intros ?%elem_of_nil|].
  intros Hrep. case_bool_decide as Hr.
  - subst r. exists (lst ++ [key]). split; [left|].
    apply elem_of_app. right. left.
  - apply elem_of_cons in Hrep as [->|Hrep]; [done|].
    destruct (IH Hrep) as (lst' & ? & ?). exists lst'. split; [by right|done].
Qed.

Lemma dict_set_new (d : clusters_t) (key : string) (lst : list string) :
  key ∉ d.*1 → dict_set d key lst = d ++ [(key, lst)].
Proof.
  induction d as [|[r l] d IH]; csimpl; [done|].
  intros [Hr Hd]%not_elem_of_cons.
  rewrite bool_decide_eq_false_2 by done. by rewrite IH.
Qed.

Lemma members_app (d1 d2 : clusters_t) : members (d1 ++ d2) = members d1 ++ members d2.
Proof.
  induction d1 as [|[r l] d1 IH]; csimpl; [done|]. by rewrite IH, app_assoc.
Qed.

Lemma members_elem (d : clusters_t) (k : string) :
  k ∈ members d ↔ ∃ r lst, (r, lst) ∈ d ∧ k ∈ lst.
Proof.
  induction d as [|[r l] d IH]; csimpl.
  - split; [by intros ?%elem_of_nil | by intros (? & ? & ?%elem_of_nil & _)].
  - rewrite elem_of_app, IH. split.
    + intros [H|(r' & l' & ? & ?)]; [exists r, l; split; [left|done]|].
      exists r', l'. split; [by right|done].
    + intros (r' & l' & [H|H]%elem_of_cons & ?).
      * injection H as -> ->. by left.
      * right. by exists r', l'.
Qed.

(** ** The clustering loop *)

Section clustering_facts.
Context (tsr : string → string → Z).

(** What the loop keeps true of [clusters] once the keys [seen] are
    done. *)
Definition clusters_inv (d : clusters_t) (seen : list string) : Prop :=
  NoDup (d.*1) ∧ NoDup (members d)
  ∧ (∀ k, k ∈ members d ↔ k ∈ seen ∧ k ≠ ""%string)
  ∧ (∀ r lst, (r, lst) ∈ d → r ∈ lst).

Lemma first_match_Some (key rep : string) (d : clusters_t) :
  first_match tsr key d = Some rep ↔
  ∃ pre post, d.*1 = pre ++ rep :: post ∧ (90 ≤ tsr key rep)%Z
              ∧ ∀ r, r ∈ pre → (tsr key r < 90)%Z.
Proof.
  unfold first_match. generalize (d.*1). intros l.
  induction l as [|r l IH]; csimpl.
  - split; [done|]. intros (pre & post & H & _). by destruct pre.
  - case_bool_decide as Hr.
    + split.
      * intros [= <-]. exists [], l. split_and!; [done..|].
        by intros ? ?%elem_of_nil.
      * intros ([|r' pre] & post & H & Hge & Hlt).
        -- by injection H as -> _.
        -- injection H as <- _. assert (tsr key r < 90)%Z by (apply Hlt; left). lia.
    + rewrite IH. split.
      * intros (pre & post & -> & Hge & Hlt). exists (r :: pre), post.
        split_and!; [done..|]. intros r' [->|?]%elem_of_cons; [lia|auto].
      * intros ([|r' pre] & post & H & Hge & Hlt).
        -- injection H as -> _. done.
        -- injection H as <- ->. exists pre, post. split_and!; [done..|].
           intros r' Hr'. apply Hlt. by right.
Qed.

Lemma first_match_elem (key rep : string) (d : clusters_t) :
  first_match tsr key d = Some rep → rep ∈ d.*1.
Proof.
  intros (pre & post & -> & _)%first_match_Some.
  apply elem_of_app. right. left.
Qed.

Lemma clusters_inv_reps (d : clusters_t) (seen : list string) (r : string) :
  clusters_inv d seen → r ∈ d.*1 → r ∈ seen.
Proof.
  intros (_ & _ & Hm & Hr) (x & -> & Hx)%list_elem_of_fmap. destruct x as [r lst].
  apply Hm, members_elem. exists r, lst. split; [done|]. by apply Hr.
Qed.

Lemma cluster_step_inv (d : clusters_t) (seen : list string) (key : string) :
  clusters_inv d seen → key ∉ seen →
  clusters_inv (cluster_step tsr d key) (seen ++ [key]).
Proof.
  intros Hinv Hkey. pose proof Hinv as (Hn1 & Hn2 & Hm & Hr).
  unfold cluster_step. case_bool_decide as He.
  { split_and!; try done. intros k. rewrite Hm, elem_of_app, list_elem_of_singleton.
    split; [tauto|]. intros [[?| ->] ?]; tauto. }
  destruct (first_match tsr key d) as [rep|] eqn:Hfm.
  - apply first_match_elem in Hfm.
    split_and!.
    + by rewrite dict_append_fst.
    + rewrite dict_append_members by done. apply NoDup_cons. split; [|done].
      rewrite Hm. tauto.
    + intros k. rewrite dict_append_members by done.
      rewrite elem_of_cons, Hm, elem_of_app, list_elem_of_singleton.
      split; [intros [->|?]; tauto|]. intros [[?| ->] ?]; tauto.
    + intros r lst [H|(lst0 & H & -> & ->)]%dict_append_elem; [eauto|].
      apply elem_of_app. left. eauto.
  - assert (Hnew : key ∉ d.*1) by (intros ?; apply Hkey; by eapply clusters_inv_reps).
    rewrite dict_set_new by done. split_and!.
    + rewrite fmap_app. csimpl. apply NoDup_app. split_and!; [done| |apply NoDup_singleton].
      intros x Hx ->%list_elem_of_singleton. done.
    + rewrite members_app. csimpl. apply NoDup_app.
      split_and!; [done| |apply NoDup_singleton].
      intros x Hx ->%list_elem_of_singleton. apply Hm in Hx. tauto.
    + intros k. rewrite members_app. csimpl.
      rewrite !elem_of_app, Hm, list_elem_of_singleton.
      split; [intros [?| ->]; tauto|]. intros [[?| ->] ?]; tauto.
    + intros r lst [H|H%list_elem_of_singleton]%elem_of_app; [eauto|].
      injection H as -> ->. left.
Qed.

Lemma cluster_step_keeps (d : clusters_t) (seen : list string) (key r k : string)
    (lst : list string) :
  clusters_inv d seen → key ∉ seen → (r, lst) ∈ d → k ∈ lst →
  ∃ lst', (r, lst') ∈ cluster_step tsr d key ∧ k ∈ lst'.
Proof.
  intros Hinv Hkey Hr Hk. unfold cluster_step.
  case_bool_decide; [by exists lst|].
  destruct (first_match tsr key d) as [rep|] eqn:Hfm.
  - by apply dict_append_keeps with lst.
  - assert (Hnew : key ∉ d.*1) by (intros ?; apply Hkey; by eapply clusters_inv_reps).
    rewrite dict_set_new by done. exists lst. split; [|done].
    apply elem_of_app. by left.
Qed.

Lemma cluster_step_joins (d : clusters_t) (seen : list string) (key : string) :
  clusters_inv d seen → key ∉ seen → key ≠ ""%string →
  ∃ lst, (default key (first_match tsr key d), lst) ∈ cluster_step tsr d key
         ∧ key ∈ lst.
Proof.
  intros Hinv Hkey He. unfold cluster_step.
  rewrite bool_decide_eq_false_2 by done.
  destruct (first_match tsr key d) as [rep|] eqn:Hfm; csimpl.
  - apply dict_append_joins. by apply (first_match_elem key).
  - assert (Hnew : key ∉ d.*1) by (intros ?; apply Hkey; by eapply clusters_inv_reps).
    rewrite dict_set_new by done. exists [key]. split; [|left].
    apply elem_of_app. right. left.
Qed.

Lemma foldl_cluster_step_inv (l : list string) (d : clusters_t) (seen : list string) :
  clusters_inv d seen → NoDup (seen ++ l) →
  clusters_inv (foldl (cluster_step tsr) d l) (seen ++ l).
Proof.
  revert d seen. induction l as [|key l IH]; intros d seen Hinv Hnd; csimpl.
  - by rewrite app_nil_r.
  - replace (seen ++ key :: l) with ((seen ++ [key]) ++ l) in Hnd |- *
      by (by rewrite <- app_assoc).
    apply IH; [|done].
    apply cluster_step_inv; [done|].
    apply NoDup_app in Hnd as (Hnd & _ & _).
    apply NoDup_app in Hnd as (_ & Hnd & _).
    intros Hk. apply (Hnd key Hk). left.
Qed.

Lemma foldl_cluster_step_keeps (l : list string) (d : clusters_t) (seen : list string)
    (r k : string) (lst : list string) :
  clusters_inv d seen → NoDup (seen ++ l) → (r, lst) ∈ d → k ∈ lst →
  ∃ lst', (r, lst') ∈ foldl (cluster_step tsr) d l ∧ k ∈ lst'.
Proof.
  revert d seen lst. induction l as [|key l IH]; intros d seen lst Hinv Hnd Hr Hk; csimpl.
  - by exists lst.
  - assert (Hkey : key ∉ seen).
    { apply NoDup_app in Hnd as (_ & Hnd & _). intros ?. apply (Hnd key); [done|left]. }
    destruct (cluster_step_keeps d seen key r k lst) as (lst' & Hr' & Hk'); [done..|].
    replace (seen ++ key :: l) with ((seen ++ [key]) ++ l) in Hnd
      by (by rewrite <- app_assoc).
    apply (IH _ (seen ++ [key]) lst'); [|done..].
    by apply cluster_step_inv.
Qed.

Lemma clusters_inv_empty : clusters_inv [] [].
Proof.
  split_and!; [constructor..| |by intros ?? ?%elem_of_nil].
  intros k. csimpl. rewrite !elem_of_nil. tauto.
Qed.

Lemma clusters_inv_final (keys : list string) :
  clusters_inv (clusters tsr keys) (unique keys).
Proof.
  apply (foldl_cluster_step_inv (unique keys) [] []); [apply clusters_inv_empty|].
  apply unique_from_NoDup.
Qed.

(** ** [key_to_rep] *)

Lemma insert_all_lookup (m : gmap string string) (r : string) (lst : list string)
    (k : string) :
  foldl (λ m k, <[k := r]> m) m lst !! k = if decide (k ∈ lst) then Some r else m !! k.
Proof.
  revert m. induction lst as [|x lst IH]; intros m.
  - csimpl. destruct (decide (k ∈ [])) as [Hk|Hk]; [by apply elem_of_nil in Hk | done].
  - change (foldl (λ m k, <[k := r]> m) (<[x := r]> m) lst !! k
            = if decide (k ∈ x :: lst) then Some r else m !! k).
    rewrite IH. destruct (decide (k ∈ lst)) as [Hk|Hk].
    + destruct (decide (k ∈ x :: lst)) as [?|Hn]; [done|]. destruct Hn. by right.
    + destruct (decide (k = x)) as [->|Hx].
      * rewrite lookup_insert_eq.
        destruct (decide (x ∈ x :: lst)) as [?|Hn]; [done|]. destruct Hn. left.
      * rewrite lookup_insert_ne by done.
        destruct (decide (k ∈ x :: lst)) as [[->|?]%elem_of_cons|?]; done.
Qed.

Lemma key_to_rep_of_fold (m : gmap string string) (d : clusters_t) (k : string) :
  k ∉ members d →
  foldl (λ m '(r, lst), foldl (λ m k, <[k := r]> m) m lst) m d !! k = m !! k.
Proof.
  revert m. induction d as [|[r lst] d IH]; intros m Hk; csimpl; [done|].
  csimpl in Hk. rewrite elem_of_app in Hk.
  rewrite IH by tauto. rewrite insert_all_lookup.
  destruct (decide (k ∈ lst)); [tauto | done].
Qed.

Lemma key_to_rep_of_lookup (d : clusters_t) (k r : string) (lst : list string) :
  NoDup (members d) → (r, lst) ∈ d → k ∈ lst → key_to_rep_of d !! k = Some r.
Proof.
  unfold key_to_rep_of. generalize (∅ : gmap string string).
  induction d as [|[r0 lst0] d IH]; intros m Hnd Hr Hk; [by apply elem_of_nil in Hr|].
  csimpl in *. apply NoDup_app in Hnd as (Hn0 & Hdis & Hnd).
  apply elem_of_cons in Hr as [Hr|Hr].
  - injection Hr as <- <-. rewrite key_to_rep_of_fold by auto.
    rewrite insert_all_lookup. destruct (decide (k ∈ _)); done.
  - by apply IH.
Qed.

Lemma key_to_rep_of_None (d : clusters_t) (k : string) :
  k ∉ members d → key_to_rep_of d !! k = None.
Proof. intros Hk. unfold key_to_rep_of. by rewrite key_to_rep_of_fold. Qed.
End clustering_facts.

Lemma build_elem (tsr : string → string → Z) (data : list record) (r : row) :
  r ∈ build tsr data →
  ∃ x, x ∈ data ∧ Combined_Key r = combined_key x
       ∧ Cluster_Key r = key_to_rep tsr (combined_key <$> data) !! combined_key x.
Proof.
  unfold build. intros (y & -> & (x & -> & Hx)%list_elem_of_fmap)%list_elem_of_fmap.
  by exists x.
Qed.

(** C3: the keys are scanned without repetition in the order of their
    first occurrence; the clusters hold every key that is not empty once
    and no other key, so each such key has one cluster; a key joins the
    first cluster, in order of creation, whose representative scores 90 or
    more with it, and else starts a cluster of its own; the empty key is
    in no cluster, and no row of the reference table has it. *)
Theorem greedy_clustering (tsr : string → string → Z) (keys : list string) :
  let cl := clusters tsr keys in
  (NoDup (unique keys) ∧ (∀ k, k ∈ unique keys ↔ k ∈ keys)
   ∧ ∀ l1 k l2, keys = l1 ++ k :: l2 → k ∉ l1 →
       ∃ u2, unique keys = unique l1 ++ k :: u2)
  ∧ (NoDup (cl.*1) ∧ NoDup (members cl)
     ∧ (∀ k, k ∈ members cl ↔ k ∈ keys ∧ k ≠ ""%string)
     ∧ ∀ k, k ∈ keys → k ≠ ""%string →
         ∃ rep, key_to_rep tsr keys !! k = Some rep
                ∧ (∃ lst, (rep, lst) ∈ cl ∧ k ∈ lst)
                ∧ ∀ r lst, (r, lst) ∈ cl → k ∈ lst → r = rep)
  ∧ (∀ pre k post, unique keys = pre ++ k :: post → k ≠ ""%string →
       (key_to_rep tsr keys !! k
          = Some (default k (first_match tsr k (clusters tsr pre))))
       ∧ ∀ rep, first_match tsr k (clusters tsr pre) = Some rep ↔
           ∃ before after, (clusters tsr pre).*1 = before ++ rep :: after
             ∧ (90 ≤ tsr k rep)%Z ∧ ∀ r, r ∈ before → (tsr k r < 90)%Z)
  ∧ ((""%string ∉ members cl) ∧ key_to_rep tsr keys !! ""%string = None)
  ∧ (∀ data r, r ∈ build tsr data →
       Combined_Key r ≠ ""%string ∧ is_Some (Cluster_Key r)).
Proof.
  intros cl.
  pose proof (clusters_inv_final tsr keys) as Hinv. fold cl in Hinv.
  assert (Hu : ∀ k, k ∈ unique keys ↔ k ∈ keys).
  { intros k. unfold unique. rewrite unique_from_spec.
    pose proof (not_elem_of_nil k). tauto. }
  assert (Hmem : ∀ ks k, k ∈ members (clusters tsr ks) ↔ k ∈ ks ∧ k ≠ ""%string).
  { intros ks k. destruct (clusters_inv_final tsr ks) as (_ & _ & Hm & _).
    rewrite Hm. unfold unique. rewrite unique_from_spec.
    pose proof (not_elem_of_nil k). tauto. }
  assert (Hlook : ∀ ks k, k ∈ ks → k ≠ ""%string →
            ∃ rep, key_to_rep tsr ks !! k = Some rep
                   ∧ (∃ lst, (rep, lst) ∈ clusters tsr ks ∧ k ∈ lst)
                   ∧ ∀ r lst, (r, lst) ∈ clusters tsr ks → k ∈ lst → r = rep).
  { intros ks k Hk He.
    destruct (clusters_inv_final tsr ks) as (_ & Hn2 & _ & _).
    assert (Hin : k ∈ members (clusters tsr ks)) by (by apply Hmem).
    apply members_elem in Hin as (rep & lst & Hr & Hkl).
    pose proof (key_to_rep_of_lookup tsr (clusters tsr ks) k rep lst Hn2 Hr Hkl) as Hrep.
    exists rep. split_and!; [done|by exists lst|].
    intros r' lst' Hr' Hk'.
    pose proof (key_to_rep_of_lookup tsr (clusters tsr ks) k r' lst' Hn2 Hr' Hk') as Hrep'.
    unfold key_to_rep in *. congruence. }
  destruct Hinv as (Hn1 & Hn2 & Hm & Hrl).
  split_and!; try done.
  - apply unique_from_NoDup.
  - intros l1 k l2 -> Hk. unfold unique. rewrite unique_from_app. csimpl.
    rewrite app_nil_r. rewrite bool_decide_eq_false_2 by done. eauto.
  - by apply Hmem.
  - by apply Hlook.
  - intros pre k post Hpre He.
    pose proof (unique_from_NoDup [] keys) as Hnd. fold (unique keys) in Hnd.
    rewrite Hpre in Hnd.
    assert (Hnpre : NoDup pre) by (by apply NoDup_app in Hnd as (? & _ & _)).
    assert (Hkpre : k ∉ pre).
    { apply NoDup_app in Hnd as (_ & Hd & _). intros ?. apply (Hd k); [done|left]. }
    assert (Hd0 : clusters_inv (clusters tsr pre) pre).
    { rewrite <- (unique_NoDup_id pre Hnpre) at 2. apply clusters_inv_final. }
    split; [|intros rep; apply first_match_Some].
    destruct (cluster_step_joins tsr _ _ k Hd0 Hkpre He) as (lst & Hr & Hk).
    destruct (foldl_cluster_step_keeps tsr post
                (cluster_step tsr (clusters tsr pre) k) (pre ++ [k])
                (default k (first_match tsr k (clusters tsr pre))) k lst)
      as (lst' & Hr' & Hk');
      [by apply cluster_step_inv | by rewrite <- app_assoc | done..|].
    apply (key_to_rep_of_lookup tsr _ k _ lst'); [done| |done].
    unfold cl, clusters. rewrite Hpre, foldl_app. csimpl.
    unfold clusters in Hr'. rewrite (unique_NoDup_id pre Hnpre) in Hr' |- *. done.
  - intros H. apply Hm in H. tauto.
  - apply (key_to_rep_of_None tsr). intros H. apply Hm in H. tauto.
  - intros data r (x & Hx & -> & ->)%build_elem.
    split; [apply combined_key_not_empty|].
    destruct (Hlook (combined_key <$> data) (combined_key x)) as (rep & -> & _);
      [by apply list_elem_of_fmap_2 | apply combined_key_not_empty | done].
Qed.

(** ** Character classes *)

Lemma digit_word c : is_digit c = true → is_word c = true.
Proof. destruct c as [[] [] [] [] [] [] [] []]; vm_compute; congruence. Qed.

Lemma digit_not_sep c : is_digit c = true → is_sep c = false.
Proof. destruct c as [[] [] [] [] [] [] [] []]; vm_compute; congruence. Qed.

Lemma sep_not_digit c : is_sep c = true → is_digit c = false.
Proof. destruct c as [[] [] [] [] [] [] [] []]; vm_compute; congruence. Qed.

Lemma sep_not_word c : is_sep c = true → is_word c = false.
Proof. destruct c as [[] [] [] [] [] [] [] []]; vm_compute; congruence. Qed.

Lemma not_word_not_digit c : is_word c = false → is_digit c = false.
Proof. destruct c as [[] [] [] [] [] [] [] []]; vm_compute; congruence. Qed.

Lemma space_not_word c : is_space c = true → is_word c = false.
Proof. destruct c as [[] [] [] [] [] [] [] []]; vm_compute; congruence. Qed.

Lemma upper_char_idem c : upper_char (upper_char c) = upper_char c.
Proof. destruct c as [[] [] [] [] [] [] [] []]; vm_compute; congruence. Qed.

Lemma upper_char_space c : is_space (upper_char c) = is_space c.
Proof. destruct c as [[] [] [] [] [] [] [] []]; vm_compute; congruence. Qed.

(** ** The date pattern *)

Lemma length_sub_cons {A} (c : A) (s rest : list A) (k : nat) :
  length s - length rest = k → length rest ≤ length s →
  length (c :: s) - length rest = S k.
Proof. simpl. lia. Qed.

Ltac class_facts :=
  repeat match goal with
  | H : is_digit ?c = true |- _ =>
      lazymatch goal with
      | _ : is_word c = true |- _ => fail
      | _ => pose proof (digit_word c H); pose proof (digit_not_sep c H)
      end
  | H : is_sep ?c = true |- _ =>
      lazymatch goal with
      | _ : is_word c = false |- _ => fail
      | _ => pose proof (sep_not_word c H); pose proof (sep_not_digit c H)
      end
  | H : is_word ?c = false |- _ =>
      lazymatch goal with
      | _ : is_digit c = false |- _ => fail
      | _ => pose proof (not_word_not_digit c H)
      end
  end.

Ltac use_facts_in H :=
  repeat match goal with
  | E : is_digit ?c = _ |- _ => rewrite E in H
  | E : is_sep ?c = _ |- _ => rewrite E in H
  | E : is_word ?c = _ |- _ => rewrite E in H
  | E : word_opt ?p = _ |- _ => rewrite E in H
  end.

Ltac use_facts :=
  repeat match goal with
  | E : is_digit ?c = _ |- _ => rewrite E
  | E : is_sep ?c = _ |- _ => rewrite E
  | E : is_word ?c = _ |- _ => rewrite E
  | E : word_opt ?p = _ |- _ => rewrite E
  end.

(** One step of the case analysis on a run of the matcher in [H]. *)
Ltac scan_step H :=
  cbn [hd_error word_opt xorb negb] in H; use_facts_in H;
  cbn [hd_error word_opt xorb negb] in H;
  lazymatch type of H with
  | None = Some _ => discriminate H
  | context [match ?s with [] => _ | _ :: _ => _ end] =>
      is_var s; destruct s
  | context [if is_digit ?c then _ else _] =>
      let E := fresh "E" in destruct (is_digit c) eqn:E; class_facts
  | context [if is_sep ?c then _ else _] =>
      let E := fresh "E" in destruct (is_sep c) eqn:E; class_facts
  | context [is_word ?c] =>
      let E := fresh "E" in destruct (is_word c) eqn:E; class_facts
  | context [word_opt ?p] =>
      let E := fresh "E" in destruct (word_opt p) eqn:E
  end.

Lemma date_rx_unfold p s k :
  date_rx p s k =
  if xorb (word_opt p) (word_opt (hd_error s)) then
    rx_seq (rx_rep_1_2 (rx_class is_digit))
   (rx_seq (rx_class is_sep)
   (rx_seq (rx_rep_1_2 (rx_class is_digit))
   (rx_seq (rx_class is_sep)
   (rx_seq (rx_rep_2_4 (rx_class is_digit)) rx_wordb)))) p s k
  else None.
Proof. reflexivity. Qed.

Ltac list_prefix s rest :=
  lazymatch s with
  | rest => constr:(@nil ascii)
  | ?c :: ?s' => let w := list_prefix s' rest in constr:(c :: w)
  end.

Ltac run_matcher :=
  rewrite date_rx_unfold;
  cbv [rx_seq rx_rep_1_2 rx_rep_2_4 rx_opt rx_class rx_wordb];
  repeat (cbn [app hd_error word_opt xorb negb]; use_facts).

(** A match of the date pattern: what it takes of the text, and that it
    only depends on the matched text and the two characters around it. *)
Lemma date_match_inv (p : option ascii) (s : list ascii) (n : nat) :
  date_match p s = Some n →
  word_opt p = false
  ∧ ∃ w rest, s = w ++ rest ∧ length w = n ∧ chained w = true ∧ boundary rest
      ∧ word_opt (hd_error w) = true
      ∧ forallb (λ c, is_digit c || is_sep c) w = true
      ∧ ∀ p' rest', word_opt p' = false → boundary rest' →
          date_match p' (w ++ rest') = Some n.
Proof.
  intros H. unfold date_match, match_len in H.
  destruct (date_rx p s _) as [rest|] eqn:Hm; [|discriminate].
  injection H as Hn. rewrite date_rx_unfold in Hm.
  cbv [rx_seq rx_rep_1_2 rx_rep_2_4 rx_opt rx_class rx_wordb] in Hm.
  repeat scan_step Hm.
  all: injection Hm as <-.
  all: split; [reflexivity|].
  all: lazymatch type of Hn with
       | length ?s - length ?rest = _ =>
           let w := list_prefix s rest in exists w, rest
       end.
  all: split; [reflexivity|].
  all: split; [rewrite <- Hn; simpl; lia|].
  all: split; [cbn; use_facts; reflexivity|].
  all: split; [unfold boundary; cbn; use_facts; reflexivity|].
  all: split; [cbn; use_facts; reflexivity|].
  all: split; [cbn; use_facts; reflexivity|].
  all: intros p' rest' Hp' Hb; unfold boundary in Hb;
       unfold date_match, match_len;
       destruct rest' as [|c' rest']; cbn [hd_error word_opt] in Hb; class_facts;
       run_matcher; f_equal; rewrite <- Hn; simpl; lia.
Qed.

Lemma span_char_not_space c : is_digit c || is_sep c = true → is_space c = false.
Proof. destruct c as [[] [] [] [] [] [] [] []]; vm_compute; congruence. Qed.

Lemma date_match_prev (p p' : option ascii) (s : list ascii) :
  word_opt p = word_opt p' → date_match p s = date_match p' s.
Proof.
  intros Hp. unfold date_match, match_len. rewrite !date_rx_unfold, Hp.
  destruct (xorb _ _); [|done]. by destruct s.
Qed.

Lemma date_match_nil (p : option ascii) : date_match p [] = None.
Proof. by destruct p as [c|]; [unfold date_match, match_len; rewrite date_rx_unfold; simpl; destruct (is_word c)|]. Qed.

Lemma date_match_after_word (p : option ascii) (s : list ascii) :
  word_opt p = true → date_match p s = None.
Proof.
  intros Hp. destruct (date_match p s) as [n|] eqn:Hm; [|done].
  apply date_match_inv in Hm as [Hp' _]. congruence.
Qed.

Lemma date_match_not_word (p : option ascii) (c : ascii) (s : list ascii) :
  is_word c = false → date_match p (c :: s) = None.
Proof.
  intros Hc. destruct (date_match p (c :: s)) as [n|] eqn:Hm; [|done].
  apply date_match_inv in Hm as (_ & w & rest & Hs & _ & _ & Hb & Hw & _).
  destruct w as [|c' w]; [done|]. injection Hs as <- _. simpl in Hw. congruence.
Qed.

(** What a match at the head of [c :: s] tells the scan of [re.sub]. *)
Lemma date_match_skip (p : option ascii) (c : ascii) (s : list ascii) (n : nat) :
  date_match p (c :: s) = Some n →
  ∃ m, n = S m ∧ word_opt p = false ∧ is_word c = true
       ∧ m ≤ length s ∧ boundary (drop m s).
Proof.
  intros (Hp & w & rest & Hs & Hn & _ & Hb & Hw & _)%date_match_inv.
  destruct w as [|c' w]; [done|]. injection Hs as <- ->. simpl in Hn, Hw.
  exists (length w). split_and!; [done..| |].
  - rewrite length_app. lia.
  - by rewrite drop_app_length.
Qed.

(** ** [re.sub] of the dates *)

Lemma sub_dates_emit (p : option ascii) (c : ascii) (s : list ascii) :
  date_match p (c :: s) = None →
  sub_dates p 0 (c :: s) = c :: sub_dates (Some c) 0 s.
Proof. intros H. simpl. by rewrite H. Qed.

Lemma sub_dates_drop (p : option ascii) (c : ascii) (s : list ascii) (m : nat) :
  date_match p (c :: s) = Some (S m) →
  sub_dates p 0 (c :: s) = sub_dates (Some c) m s.
Proof. intros H. simpl. by rewrite H. Qed.

Lemma sub_dates_boundary (s : list ascii) (p : option ascii) (k : nat) :
  k ≤ length s → boundary (drop k s) → boundary (sub_dates p k s).
Proof.
  revert p k. induction s as [|c s IH]; intros p k Hk Hb; [done|].
  destruct k as [|k].
  - unfold boundary in Hb. simpl in Hb.
    rewrite sub_dates_emit by (by apply date_match_not_word). done.
  - simpl in *. apply IH; [lia|done].
Qed.

(** Where the scan has emitted [c] and goes on to emit a text in which
    separators are followed by digits, it emits what it reads. *)
Lemma sub_dates_span (w : list ascii) (c : ascii) (s rest_o : list ascii) :
  chained (c :: w) = true →
  sub_dates (Some c) 0 s = w ++ rest_o → boundary rest_o →
  ∃ rest_i, s = w ++ rest_i ∧ boundary rest_i.
Proof.
  revert c s. induction w as [|a w IH]; intros c s Hch Hs Hb.
  - simpl in Hch, Hs. exists s. split; [done|].
    destruct s as [|x s]; [done|].
    rewrite sub_dates_emit in Hs by (by apply date_match_after_word).
    by subst rest_o.
  - cbn [chained] in Hch. apply andb_true_iff in Hch as [Hca Hch].
    destruct s as [|x s]; [done|].
    destruct (date_match (Some c) (x :: s)) as [n|] eqn:Hm.
    + apply date_match_skip in Hm as Hk. destruct Hk as (m & -> & Hc & _ & Hlen & Hbd).
      rewrite (sub_dates_drop _ _ _ _ Hm) in Hs.
      pose proof (sub_dates_boundary s (Some x) m Hlen Hbd) as Hbo.
      rewrite Hs in Hbo. unfold boundary in Hbo. simpl in Hbo, Hc.
      rewrite Hc, Hbo in Hca. done.
    + rewrite (sub_dates_emit _ _ _ Hm) in Hs. injection Hs as -> Hs.
      destruct (IH a s Hch Hs Hb) as (rest_i & -> & Hbi). by exists rest_i.
Qed.

Lemma sub_dates_no_date (s : list ascii) (p q : option ascii) (k : nat) :
  match k with
  | 0 => q = p ∨ (word_opt q = false ∧ boundary s)
  | S _ => word_opt q = false ∧ k ≤ length s ∧ boundary (drop k s)
  end →
  no_date q (sub_dates p k s).
Proof.
  revert p q k. induction s as [|c s IH]; intros p q k Hinv; [done|].
  destruct k as [|k].
  - destruct (date_match p (c :: s)) as [n|] eqn:Hm.
    + apply date_match_skip in Hm as Hk. destruct Hk as (m & -> & Hp & Hc & Hlen & Hbd).
      rewrite (sub_dates_drop _ _ _ _ Hm). apply IH.
      assert (Hq : word_opt q = false).
      { destruct Hinv as [->|[_ Hb]]; [done|].
        unfold boundary in Hb. simpl in Hb. congruence. }
      destruct m; [right|]; done.
    + rewrite (sub_dates_emit _ _ _ Hm). split; [|apply IH; by left].
      destruct Hinv as [->|[_ Hb]]; [|by apply date_match_not_word].
      destruct (date_match p (c :: sub_dates (Some c) 0 s)) as [n|] eqn:Ho; [|done].
      apply date_match_inv in Ho
        as (Hp & w & rest_o & Hs & Hn & Hch & Hb & Hw & _ & Hloc).
      destruct w as [|c' w]; [done|]. injection Hs as <- Hs.
      destruct (sub_dates_span w c s rest_o Hch Hs Hb) as (rest_i & -> & Hbi).
      rewrite <- (Hloc p rest_i Hp Hbi), <- Hm. done.
  - simpl. apply IH. simpl in Hinv. destruct Hinv as (Hq & Hlen & Hb).
    destruct k; [right|split_and!; [|lia|]]; done.
Qed.

Lemma sub_dates_id (s : list ascii) (p : option ascii) :
  no_date p s → sub_dates p 0 s = s.
Proof.
  revert p. induction s as [|c s IH]; intros p; [done|].
  intros [Hm Hs]. rewrite (sub_dates_emit _ _ _ Hm). by rewrite IH.
Qed.

Lemma no_date_prev (s : list ascii) (p p' : option ascii) :
  word_opt p = word_opt p' → no_date p s → no_date p' s.
Proof.
  destruct s as [|c s]; [done|]. intros Hp [Hm Hs].
  split; [|done]. by rewrite <- (date_match_prev p p').
Qed.

(** ** White space *)

Lemma rstrip_split (s : list ascii) :
  ∃ t, s = rstrip s ++ t ∧ Forall (λ c, is_space c = true) t.
Proof.
  induction s as [|c s (t & Hs & Ht)]; [by exists []|]. simpl.
  destruct (rstrip s) as [|r rs] eqn:Hr.
  - simpl in Hs. subst t. destruct (is_space c) eqn:Hc.
    + exists (c :: s). split; [done|]. by constructor.
    + exists s. done.
  - exists t. split; [|done]. simpl. by rewrite Hs at 1.
Qed.

Lemma boundary_app_spaces (rest t : list ascii) :
  boundary rest → Forall (λ c, is_space c = true) t → boundary (rest ++ t).
Proof.
  intros Hb Ht. destruct rest as [|c rest]; [|done]. simpl.
  destruct Ht as [|c t Hc _]; [done|]. unfold boundary. simpl.
  by apply space_not_word.
Qed.

Lemma no_date_before_spaces (u t : list ascii) (p : option ascii) :
  Forall (λ c, is_space c = true) t → no_date p (u ++ t) → no_date p u.
Proof.
  intros Ht. revert p. induction u as [|c u IH]; intros p; [done|].
  simpl. intros [Hm Hu]. split; [|by apply IH].
  destruct (date_match p (c :: u)) as [n|] eqn:Ho; [|done].
  apply date_match_inv in Ho as (Hp & w & rest & Hs & _ & _ & Hb & _ & _ & Hloc).
  rewrite <- (Hloc p (rest ++ t) Hp (boundary_app_spaces _ _ Hb Ht)).
  by rewrite app_assoc, <- Hs.
Qed.

Lemma no_date_rstrip (s : list ascii) (p : option ascii) :
  no_date p s → no_date p (rstrip s).
Proof.
  destruct (rstrip_split s) as (t & Hs & Ht). intros H.
  apply (no_date_before_spaces _ t); [done|]. by rewrite <- Hs.
Qed.

Lemma no_date_lstrip (s : list ascii) : no_date None s → no_date None (lstrip s).
Proof.
  assert (H : ∀ p, word_opt p = false → no_date p s → no_date None (lstrip s)).
  { induction s as [|c s IH]; intros p Hp; [done|]. cbn [lstrip].
    destruct (is_space c) eqn:Hc.
    - intros [_ Hs]. apply (IH (Some c)); [|done]. by apply space_not_word.
    - apply no_date_prev. by rewrite Hp. }
  by apply (H None).
Qed.

(** What [re.sub] of the white space emits up to its next space is what
    it reads. *)
Lemma sub_spaces_span (w s rest_o : list ascii) :
  forallb (λ c, is_digit c || is_sep c) w = true →
  sub_spaces false s = w ++ rest_o → boundary rest_o →
  ∃ rest_i, s = w ++ rest_i ∧ boundary rest_i.
Proof.
  revert s. induction w as [|a w IH]; intros s Hw Hs Hb.
  - exists s. split; [done|]. simpl in Hs.
    destruct s as [|x s]; [done|]. simpl in Hs. unfold boundary. simpl.
    destruct (is_space x) eqn:Hx; [by apply space_not_word|].
    by rewrite <- Hs in Hb.
  - simpl in Hw. apply andb_true_iff in Hw as [Ha Hw].
    apply span_char_not_space in Ha.
    destruct s as [|x s]; [done|]. simpl in Hs.
    destruct (is_space x) eqn:Hx.
    + injection Hs as <- _. done.
    + injection Hs as -> Hs. destruct (IH s Hw Hs Hb) as (rest_i & -> & Hbi).
      by exists rest_i.
Qed.

Lemma no_date_sub_spaces (s : list ascii) (p q : option ascii) (b : bool) :
  word_opt q = word_opt p → (b = true → word_opt p = false) →
  no_date p s → no_date q (sub_spaces b s).
Proof.
  revert p q b. induction s as [|c s IH]; intros p q b Hq Hb; [done|].
  simpl. intros [Hm Hs]. destruct (is_space c) eqn:Hc.
  - pose proof (space_not_word c Hc) as Hw. destruct b.
    + apply (IH (Some c)); [|done..]. simpl. rewrite Hq, Hw. by apply Hb.
    + split; [by apply date_match_not_word|]. by apply (IH (Some c)).
  - split; [|by apply (IH (Some c))].
    destruct (date_match q (c :: sub_spaces false s)) as [n|] eqn:Ho; [|done].
    apply date_match_inv in Ho
      as (Hp & w & rest_o & Hw & _ & _ & Hbo & Hhd & Hsp & Hloc).
    destruct w as [|c' w]; [done|]. injection Hw as <- Hw.
    simpl in Hsp. apply andb_true_iff in Hsp as [_ Hsp].
    destruct (sub_spaces_span w s rest_o Hsp Hw Hbo) as (rest_i & -> & Hbi).
    rewrite <- (Hloc p rest_i), <- Hm; [done| |done]. by rewrite <- Hq.
Qed.

Lemma sub_spaces_single (s : list ascii) (b : bool) : single_spaced b (sub_spaces b s).
Proof.
  revert b. induction s as [|c s IH]; intros b; [done|]. simpl.
  destruct (is_space c) eqn:Hc.
  - destruct b; [apply IH|]. simpl. split_and!; [done..|apply IH].
  - simpl. rewrite Hc. apply IH.
Qed.

Lemma single_spaced_id (s : list ascii) (b : bool) :
  single_spaced b s → sub_spaces b s = s.
Proof.
  revert b. induction s as [|c s IH]; intros b; [done|]. simpl.
  destruct (is_space c).
  - intros (-> & -> & H). by rewrite IH.
  - intros H. by rewrite IH.
Qed.

Lemma single_spaced_weaken (s : list ascii) (b : bool) :
  single_spaced b s → single_spaced false s.
Proof. destruct s as [|c s]; [done|]. simpl. destruct (is_space c); [|done]. tauto. Qed.

Lemma single_spaced_app_l (u t : list ascii) (b : bool) :
  single_spaced b (u ++ t) → single_spaced b u.
Proof.
  revert b. induction u as [|c u IH]; intros b; [done|]. simpl.
  destruct (is_space c); [|apply IH]. intros (? & ? & ?). split_and!; [done..|by apply IH].
Qed.

Lemma single_spaced_lstrip (s : list ascii) :
  single_spaced false s → single_spaced false (lstrip s).
Proof.
  destruct s as [|c s]; [done|]. simpl. destruct (is_space c) eqn:Hc.
  - intros (_ & _ & H). destruct s as [|c' s]; [done|].
    cbn [single_spaced lstrip] in *. destruct (is_space c') eqn:Hc'.
    + by destruct H as (_ & ? & _).
    + cbn [single_spaced]. by rewrite Hc'.
  - simpl. by rewrite Hc.
Qed.

Lemma single_spaced_rstrip (s : list ascii) (b : bool) :
  single_spaced b s → single_spaced b (rstrip s).
Proof.
  destruct (rstrip_split s) as (t & Hs & _). intros H.
  apply (single_spaced_app_l _ t). by rewrite <- Hs.
Qed.

Lemma lstrip_starts_black (s : list ascii) : starts_black (lstrip s).
Proof. induction s as [|c s IH]; [done|]. simpl. by destruct (is_space c) eqn:Hc. Qed.

Lemma lstrip_id (s : list ascii) : starts_black s → lstrip s = s.
Proof. destruct s as [|c s]; [done|]. simpl. by intros ->. Qed.

Lemma rstrip_starts_black (s : list ascii) : starts_black s → starts_black (rstrip s).
Proof.
  destruct s as [|c s]; [done|]. simpl. intros Hc.
  destruct (rstrip s); [by rewrite Hc|done].
Qed.

Lemma rstrip_idem (s : list ascii) : rstrip (rstrip s) = rstrip s.
Proof.
  induction s as [|c s IH]; [done|]. simpl.
  destruct (rstrip s) as [|r rs] eqn:Hr.
  - destruct (is_space c) eqn:Hc; [done|]. simpl. by rewrite Hc.
  - change (rstrip (c :: r :: rs)) with
      (match rstrip (r :: rs) with [] => if is_space c then [] else [c] | x => c :: x end).
    by rewrite IH.
Qed.

Lemma strip_idem (s : list ascii) : strip (strip s) = strip s.
Proof.
  unfold strip. rewrite (lstrip_id (rstrip _)); [apply rstrip_idem|].
  apply rstrip_starts_black, lstrip_starts_black.
Qed.

(** ** [normalize_text] *)

Lemma sub_dates_Forall (P : ascii → Prop) (s : list ascii) (p : option ascii) (k : nat) :
  Forall P s → Forall P (sub_dates p k s).
Proof.
  intros Hs. revert p k. induction Hs as [|c s Hc Hs IH]; intros p k; [done|].
  simpl. destruct k; [|apply IH].
  destruct (date_match p (c :: s)) as [[|m]|]; try apply IH; constructor; auto.
Qed.

Lemma sub_spaces_Forall (P : ascii → Prop) (s : list ascii) (b : bool) :
  P " "%char → Forall P s → Forall P (sub_spaces b s).
Proof.
  intros Hsp Hs. revert b. induction Hs as [|c s Hc Hs IH]; intros b; [done|].
  simpl. destruct (is_space c); [destruct b|]; try apply IH; constructor; auto.
Qed.

Lemma lstrip_Forall (P : ascii → Prop) (s : list ascii) :
  Forall P s → Forall P (lstrip s).
Proof.
  induction 1 as [|c s Hc Hs IH]; [done|]. simpl.
  destruct (is_space c); [done|]. by constructor.
Qed.

Lemma rstrip_Forall (P : ascii → Prop) (s : list ascii) :
  Forall P s → Forall P (rstrip s).
Proof.
  destruct (rstrip_split s) as (t & Hs & _). intros H. rewrite Hs in H.
  by apply Forall_app in H as [? _].
Qed.

Lemma upper_fixed (s : list ascii) :
  Forall (λ c, upper_char c = c) s → upper s = s.
Proof. unfold upper. induction 1 as [|c s Hc Hs IH]; simpl; [done|]. by rewrite Hc, IH. Qed.

Lemma normalize_chars_upper (s : list ascii) :
  Forall (λ c, upper_char c = c) (normalize_chars s).
Proof.
  unfold normalize_chars, strip.
  apply rstrip_Forall, lstrip_Forall, sub_spaces_Forall; [done|].
  apply sub_dates_Forall. unfold upper. apply Forall_fmap, Forall_forall.
  intros c _. apply upper_char_idem.
Qed.

Lemma normalize_chars_no_date (s : list ascii) : no_date None (normalize_chars s).
Proof.
  unfold normalize_chars, strip.
  apply no_date_rstrip, no_date_lstrip.
  apply (no_date_sub_spaces _ None); [done..|].
  apply sub_dates_no_date. by left.
Qed.

Lemma normalize_chars_single (s : list ascii) : single_spaced false (normalize_chars s).
Proof.
  unfold normalize_chars, strip.
  apply single_spaced_rstrip, single_spaced_lstrip, sub_spaces_single.
Qed.

Lemma normalize_chars_idem (s : list ascii) :
  normalize_chars (normalize_chars s) = normalize_chars s.
Proof.
  unfold normalize_chars at 1.
  rewrite (upper_fixed _ (normalize_chars_upper s)).
  rewrite (sub_dates_id _ _ (normalize_chars_no_date s)).
  rewrite (single_spaced_id _ _ (normalize_chars_single s)).
  unfold normalize_chars. apply strip_idem.
Qed.

Lemma no_date_split (pre post : list ascii) (p : option ascii) :
  no_date p (pre ++ post) →
  date_match (match last pre with Some c => Some c | None => p end) post = None.
Proof.
  revert p. induction pre as [|c pre IH]; intros p.
  - simpl. destruct post as [|c post]; [intros _; apply date_match_nil|]. by intros [? _].
  - simpl. intros [_ H]. apply IH in H.
    rewrite last_cons. by destruct (last pre).
Qed.

(** C6: the normalizer is idempotent, on every string and on a missing
    cell. *)
Theorem normalize_text_idempotent (x : cell) :
  normalize_text (Str (normalize_text x)) = normalize_text x.
Proof.
  destruct x as [|s]; [reflexivity|].
  unfold normalize_text. cbn [isna py_str].
  by rewrite list_ascii_of_string_of_list_ascii, normalize_chars_idem.
Qed.

(** C7, as stated, fails: the date pattern is anchored between two [\b],
    so a date-like substring that follows a letter stays in the text. *)
Lemma date_after_letter_kept :
  normalize_text (Str "X1/2/2022") = "X1/2/2022"%string
  ∧ match_len date_like_rx None (list_ascii_of_string "1/2/2022") = Some 8
  ∧ has_date_like (list_ascii_of_string (normalize_text (Str "X1/2/2022"))) = true.
Proof. repeat split; vm_compute; reflexivity. Qed.

(** C7, amended: in the normalized text no position starts a match of
    [\b\d{1,2}[-/]\d{1,2}[-/]\d{2,4}\b] (dates between word boundaries are
    removed, date-like digits attached to a word character are kept);
    "Replaced seal on 3/4/2022" becomes "REPLACED SEAL ON", which has no
    date-like substring at all. *)
Theorem normalize_text_no_date (x : cell) :
  (∀ pre post, list_ascii_of_string (normalize_text x) = pre ++ post →
     date_match (last pre) post = None)
  ∧ normalize_text (Str "Replaced seal on 3/4/2022") = "REPLACED SEAL ON"%string
  ∧ has_date_like
      (list_ascii_of_string (normalize_text (Str "Replaced seal on 3/4/2022"))) = false.
Proof.
  split; [|split; vm_compute; reflexivity].
  intros pre post Hs.
  assert (Hn : no_date None (list_ascii_of_string (normalize_text x))).
  { destruct x as [|s]; [done|]. unfold normalize_text. cbn [isna py_str].
    rewrite list_ascii_of_string_of_list_ascii. apply normalize_chars_no_date. }
  rewrite Hs in Hn. apply no_date_split in Hn. by destruct (last pre).
Qed.

(** ** [SequenceMatcher]: a match lies inside its rectangle *)

Section find_longest_match_bounds.
Variables (a b : list string) (b2j : gmap string (list nat)).
Variables (alo ahi blo bhi : nat).

Lemma j2lenget_pred_ok (i j : nat) (m : gmap nat nat) :
  row_ok alo blo i m → alo ≤ i → blo ≤ j →
  j2lenget_pred m j + 1 + alo ≤ S i ∧ j2lenget_pred m j + 1 + blo ≤ j + 1.
Proof.
  intros Hm Hi Hj. destruct j as [|j]; simpl; [lia|].
  destruct (m !! j) as [k|] eqn:E; simpl; [|lia].
  apply Hm in E. lia.
Qed.

Lemma flm_row_ok (i : nat) (j2len : gmap nat nat) (js : list nat)
    (newj2len : gmap nat nat) (best : block) :
  alo ≤ i → row_ok alo blo i j2len → row_ok alo blo (S i) newj2len →
  best_ok alo blo bhi (S i) best →
  row_ok alo blo (S i) (flm_row blo bhi i j2len js newj2len best).1
  ∧ best_ok alo blo bhi (S i) (flm_row blo bhi i j2len js newj2len best).2.
Proof.
  intros Hi Hm. revert newj2len best.
  induction js as [|j js IH]; intros newj2len best Hn Hb; simpl; [done|].
  case_bool_decide; [by apply IH|].
  case_bool_decide; [done|].
  destruct (j2lenget_pred_ok i j j2len) as [Ha Hb']; [done|done|lia|].
  apply IH.
  - intros j' k'. destruct (decide (j' = j)) as [->|Hne].
    + rewrite lookup_insert_eq. intros [= <-]. lia.
    + rewrite lookup_insert_ne by done. apply Hn.
  - case_bool_decide; [|done]. unfold best_ok. simpl. lia.
Qed.

Lemma flm_rows_ok (c r : nat) (j2len : gmap nat nat) (best : block) :
  alo ≤ r → row_ok alo blo r j2len → best_ok alo blo bhi r best →
  best_ok alo blo bhi (r + c) (flm_rows a b2j blo bhi (seq r c) j2len best).
Proof.
  revert r j2len best. induction c as [|c IH]; intros r j2len best Hr Hm Hb.
  - simpl. by rewrite Nat.add_0_r.
  - cbn [seq flm_rows].
    pose proof (flm_row_ok r j2len (default [] (a !! r ≫= λ elt, b2j !! elt)) ∅ best Hr Hm)
      as Hrow.
    destruct (flm_row blo bhi r j2len _ ∅ best) as [newj2len best'].
    destruct Hrow as [Hn' Hb'].
    { intros j k. by rewrite lookup_empty. }
    { unfold best_ok in *. lia. }
    replace (r + S c) with (S r + c) by lia. apply IH; [lia|done..].
Qed.

Lemma extend_left_ok (besti bestj bestsize hi : nat) :
  best_ok alo blo bhi hi (besti, bestj, bestsize) →
  best_ok alo blo bhi hi (extend_left a b alo blo besti bestj bestsize).
Proof.
  revert bestj bestsize. induction besti as [|i IH]; intros bestj bestsize Hb; [done|].
  destruct bestj as [|j]; [done|]. cbn [extend_left].
  destruct (bool_decide (alo < S i) && bool_decide (blo < S j) && same_at a b i j) eqn:E;
    [|done].
  apply andb_true_iff in E as [E _]. apply andb_true_iff in E as [E1 E2].
  apply bool_decide_eq_true in E1, E2.
  apply IH. unfold best_ok in *. simpl in *. lia.
Qed.

Lemma extend_right_ok (n besti bestj bestsize : nat) :
  best_ok alo blo bhi ahi (besti, bestj, bestsize) →
  best_ok alo blo bhi ahi (extend_right a b ahi bhi n besti bestj bestsize).
Proof.
  revert bestsize. induction n as [|n IH]; intros bestsize Hb; [done|].
  cbn [extend_right].
  destruct (bool_decide (besti + bestsize < ahi) && bool_decide (bestj + bestsize < bhi)
            && same_at a b (besti + bestsize) (bestj + bestsize)) eqn:E; [|done].
  apply andb_true_iff in E as [E _]. apply andb_true_iff in E as [E1 E2].
  apply bool_decide_eq_true in E1, E2.
  apply IH. unfold best_ok in *. simpl in *. lia.
Qed.

Lemma find_longest_match_ok :
  alo ≤ ahi → blo ≤ bhi →
  best_ok alo blo bhi ahi (find_longest_match a b b2j alo ahi blo bhi).
Proof.
  intros Ha Hb. unfold find_longest_match.
  pose proof (flm_rows_ok (ahi - alo) alo ∅ (alo, blo, 0)) as H.
  destruct (flm_rows a b2j blo bhi (seq alo (ahi - alo)) ∅ (alo, blo, 0))
    as [[besti bestj] bestsize].
  replace (alo + (ahi - alo)) with ahi in H by lia.
  pose proof (extend_left_ok besti bestj bestsize ahi) as H'.
  destruct (extend_left a b alo blo besti bestj bestsize) as [[i j] k].
  apply extend_right_ok, H', H; [done| |].
  - intros j' k'. by rewrite lookup_empty.
  - unfold best_ok. simpl. lia.
Qed.
End find_longest_match_bounds.

(** ** [get_matching_blocks]: the queue loop ends, blocks do not overlap *)

Lemma size_sum_app (l1 l2 : list block) : size_sum (l1 ++ l2) = size_sum l1 + size_sum l2.
Proof.
  induction l1 as [|x l1 IH]; [done|].
  change (size_sum ((x :: l1) ++ l2)) with (x.2 + size_sum (l1 ++ l2)).
  change (size_sum (x :: l1)) with (x.2 + size_sum l1). lia.
Qed.

Lemma size_sum_perm (l1 l2 : list block) : l1 ≡ₚ l2 → size_sum l1 = size_sum l2.
Proof.
  induction 1 as [|x l1 l2 _ IH|x y l|l1 l2 l3 _ IH1 _ IH2]; [done| | |congruence].
  - change (x.2 + size_sum l1 = x.2 + size_sum l2). lia.
  - change (y.2 + (x.2 + size_sum l) = x.2 + (y.2 + size_sum l)). lia.
Qed.

Lemma span_a_cons (alo ahi blo bhi : nat) (queue : list (nat * nat * nat * nat)) :
  span_a ((alo, ahi, blo, bhi) :: queue) = ahi - alo + span_a queue.
Proof. reflexivity. Qed.

Lemma span_b_cons (alo ahi blo bhi : nat) (queue : list (nat * nat * nat * nat)) :
  span_b ((alo, ahi, blo, bhi) :: queue) = bhi - blo + span_b queue.
Proof. reflexivity. Qed.

Lemma rounds_cons (alo ahi blo bhi : nat) (queue : list (nat * nat * nat * nat)) :
  rounds ((alo, ahi, blo, bhi) :: queue) = 2 * (ahi - alo) + 1 + rounds queue.
Proof. reflexivity. Qed.

Lemma size_sum_snoc (l : list block) (i j k : nat) :
  size_sum (l ++ [(i, j, k)]) = size_sum l + k.
Proof. rewrite size_sum_app. unfold size_sum at 2. simpl. lia. Qed.

Lemma queue_ok_cons (alo ahi blo bhi : nat) (queue : list (nat * nat * nat * nat)) :
  queue_ok ((alo, ahi, blo, bhi) :: queue) ↔ (alo ≤ ahi ∧ blo ≤ bhi) ∧ queue_ok queue.
Proof. unfold queue_ok. by rewrite Forall_cons. Qed.

Lemma blocks_loop_sum (a b : list string) (b2j : gmap string (list nat)) (fuel : nat)
    (queue : list (nat * nat * nat * nat)) (mb res : list block) :
  queue_ok queue →
  blocks_loop a b b2j fuel queue mb = Some res →
  size_sum res ≤ size_sum mb + span_a queue ∧ size_sum res ≤ size_sum mb + span_b queue.
Proof.
  revert queue mb. induction fuel as [|fuel IH]; intros queue mb Hq.
  - destruct queue as [|[[[alo ahi] blo] bhi] queue]; simpl; [|done].
    intros [= <-]. lia.
  - destruct queue as [|[[[alo ahi] blo] bhi] queue]; cbn [blocks_loop].
    { intros [= <-]. lia. }
    apply queue_ok_cons in Hq as [[Ha Hb] Hq].
    pose proof (find_longest_match_ok a b b2j alo ahi blo bhi Ha Hb) as Hf.
    destruct (find_longest_match a b b2j alo ahi blo bhi) as [[i j] k].
    unfold best_ok in Hf. simpl in Hf. rewrite span_a_cons, span_b_cons.
    case_bool_decide as Hk.
    { intros H. apply IH in H; [|done]. lia. }
    intros H. apply IH in H.
    + rewrite size_sum_snoc in H.
      repeat case_bool_decide; cbn [andb] in H;
        rewrite ?span_a_cons, ?span_b_cons in H; lia.
    + repeat case_bool_decide; cbn [andb]; rewrite ?queue_ok_cons; split_and?; done || lia.
Qed.

Lemma blocks_loop_terminates (a b : list string) (b2j : gmap string (list nat)) (fuel : nat)
    (queue : list (nat * nat * nat * nat)) (mb : list block) :
  queue_ok queue → rounds queue ≤ fuel →
  is_Some (blocks_loop a b b2j fuel queue mb).
Proof.
  revert queue mb. induction fuel as [|fuel IH]; intros queue mb Hq Hr.
  - destruct queue as [|[[[alo ahi] blo] bhi] queue]; simpl; [done|].
    rewrite rounds_cons in Hr. lia.
  - destruct queue as [|[[[alo ahi] blo] bhi] queue]; cbn [blocks_loop]; [done|].
    apply queue_ok_cons in Hq as [[Ha Hb] Hq].
    pose proof (find_longest_match_ok a b b2j alo ahi blo bhi Ha Hb) as Hf.
    destruct (find_longest_match a b b2j alo ahi blo bhi) as [[i j] k].
    unfold best_ok in Hf. simpl in Hf. rewrite rounds_cons in Hr.
    case_bool_decide as Hk.
    { apply IH; [done|]. lia. }
    apply IH.
    + repeat case_bool_decide; cbn [andb]; rewrite ?queue_ok_cons; split_and?; done || lia.
    + repeat case_bool_decide; cbn [andb]; rewrite ?rounds_cons; lia.
Qed.

Lemma raw_blocks_sum (a b : list string) :
  size_sum (raw_blocks a b) ≤ length a ∧ size_sum (raw_blocks a b) ≤ length b.
Proof.
  unfold raw_blocks.
  destruct (blocks_loop a b (chain_b b) (2 * length a + 1) [(0, length a, 0, length b)] [])
    as [res|] eqn:E; simpl; [|unfold size_sum; simpl; lia].
  apply blocks_loop_sum in E.
  - rewrite span_a_cons, span_b_cons in E.
    change (size_sum []) with 0 in E. change (span_a []) with 0 in E.
    change (span_b []) with 0 in E. lia.
  - apply queue_ok_cons. split; [lia|]. by apply Forall_nil.
Qed.

Lemma collapse_adjacent_sum (blocks non_adjacent : list block) (i1 j1 k1 : nat) :
  size_sum (collapse_adjacent i1 j1 k1 blocks non_adjacent)
  = size_sum non_adjacent + k1 + size_sum blocks.
Proof.
  revert i1 j1 k1 non_adjacent.
  induction blocks as [|[[i2 j2] k2] blocks IH]; intros i1 j1 k1 non_adjacent; simpl.
  - change (size_sum []) with 0.
    case_bool_decide; [lia|]. rewrite size_sum_snoc. lia.
  - change (size_sum ((i2, j2, k2) :: blocks)) with (k2 + size_sum blocks).
    destruct (bool_decide (i1 + k1 = i2) && bool_decide (j1 + k1 = j2)).
    + rewrite IH. lia.
    + rewrite IH. case_bool_decide; [lia|]. rewrite size_sum_snoc. lia.
Qed.

Lemma matching_blocks_sum (a b : list string) :
  size_sum (get_matching_blocks a b) = size_sum (raw_blocks a b).
Proof.
  unfold get_matching_blocks. rewrite size_sum_app, collapse_adjacent_sum.
  rewrite (size_sum_perm _ _ (merge_sort_Permutation _ _)).
  change (size_sum []) with 0. change (size_sum [_]) with 0. lia.
Qed.

Lemma Zpos_of_nat_S (n : nat) : Z.pos (Pos.of_nat (S n)) = Z.of_nat (S n).
Proof. rewrite <- Pos.of_nat_succ, Zpos_P_of_succ_nat. lia. Qed.

Lemma calculate_ratio_bounds (matches len : nat) :
  2 * matches ≤ len → (0 <= calculate_ratio matches len <= 1)%Q.
Proof.
  intros H. unfold calculate_ratio. destruct len as [|len]; [split; discriminate|].
  unfold Qle. cbn [Qnum Qden]. rewrite Zpos_of_nat_S. lia.
Qed.

Lemma ratio_bounds (a b : list string) : (0 <= ratio a b <= 1)%Q.
Proof.
  unfold ratio. apply calculate_ratio_bounds.
  change (sum_list _) with (size_sum (get_matching_blocks a b)).
  rewrite matching_blocks_sum. pose proof (raw_blocks_sum a b). lia.
Qed.

(** ** [__chain_b]: the index of the second sequence *)

Lemma chain_loop_lookup (l : list string) (m : gmap string (list nat)) (i : nat)
    (x : string) :
  chain_loop m i l !! x
  = match positions x i l with
    | [] => m !! x
    | ps => Some (default [] (m !! x) ++ ps)
    end.
Proof.
  revert m i. induction l as [|y l IH]; intros m i; [done|].
  cbn [chain_loop positions]. rewrite IH.
  destruct (decide (x = y)) as [->|Hne].
  - rewrite lookup_insert_eq. cbn [default].
    destruct (positions y (S i) l); [done|]. unfold id. by rewrite <- app_assoc.
  - by rewrite lookup_insert_ne.
Qed.

Lemma positions_elem (l : list string) (x : string) (i j : nat) :
  j ∈ positions x i l ↔ i ≤ j ∧ l !! (j - i) = Some x.
Proof.
  revert i. induction l as [|y l IH]; intros i; cbn [positions].
  - rewrite elem_of_nil, lookup_nil. naive_solver.
  - assert (Hstep : ∀ j, S i ≤ j → (y :: l) !! (j - i) = l !! (j - S i)).
    { intros j' Hj. replace (j' - i) with (S (j' - S i)) by lia. done. }
    destruct (decide (x = y)) as [->|Hne].
    + rewrite elem_of_cons, IH. split.
      * intros [->|[Hj Hl]]; [by rewrite Nat.sub_diag|].
        split; [lia|]. by rewrite Hstep.
      * intros [Hj Hl]. destruct (decide (j = i)) as [|Hji]; [by left|right].
        split; [lia|]. rewrite <- Hstep; [done|lia].
    + rewrite IH. split.
      * intros [Hj Hl]. split; [lia|]. by rewrite Hstep.
      * intros [Hj Hl]. destruct (decide (j = i)) as [->|Hji].
        { rewrite Nat.sub_diag in Hl. simpl in Hl. congruence. }
        split; [lia|]. rewrite <- Hstep; [done|lia].
Qed.

Lemma positions_sorted (l : list string) (x : string) (i : nat) :
  StronglySorted lt (positions x i l).
Proof.
  revert i. induction l as [|y l IH]; intros i; cbn [positions]; [constructor|].
  destruct (decide (x = y)); [|apply IH].
  constructor; [apply IH|]. apply Forall_forall. intros j Hj.
  apply positions_elem in Hj. lia.
Qed.

Lemma chain_b_lookup (b : list string) (x : string) (js : list nat) :
  chain_b b !! x = Some js → js = positions x 0 b ∧ js ≠ [].
Proof.
  unfold chain_b. intros H.
  assert (H' : chain_loop ∅ 0 b !! x = Some js).
  { case_bool_decide; [|done]. by apply map_lookup_filter_Some in H as [? _]. }
  rewrite chain_loop_lookup, lookup_empty in H'.
  destruct (positions x 0 b); [done|]. by injection H' as <-.
Qed.

Lemma chain_b_elem (b : list string) (x : string) (js : list nat) (j : nat) :
  chain_b b !! x = Some js → (j ∈ js ↔ b !! j = Some x).
Proof.
  intros [-> _]%chain_b_lookup. rewrite positions_elem, Nat.sub_0_r. naive_solver lia.
Qed.

Lemma chain_b_sorted (b : list string) (x : string) (js : list nat) :
  chain_b b !! x = Some js → StronglySorted lt js.
Proof. intros [-> _]%chain_b_lookup. apply positions_sorted. Qed.

Lemma chain_b_small (b : list string) (x : string) :
  length b < 200 →
  chain_b b !! x = match positions x 0 b with [] => None | ps => Some ps end.
Proof.
  intros Hn. unfold chain_b. case_bool_decide; [lia|].
  by rewrite chain_loop_lookup, lookup_empty.
Qed.

Lemma chain_b_popular (b : list string) (x : string) :
  200 ≤ length b → length b / 100 + 1 < length (positions x 0 b) →
  chain_b b !! x = None.
Proof.
  intros Hn Hp. unfold chain_b. case_bool_decide; [|lia].
  apply map_lookup_filter_None. right. intros js Hjs Hnp. apply Hnp.
  rewrite chain_loop_lookup, lookup_empty in Hjs.
  unfold popular. simpl. destruct (positions x 0 b); [done|]. by injection Hjs as <-.
Qed.

(** ** [SequenceMatcher] on two equal sequences *)

Section identical.
Variable a : list string.

Local Abbreviation b2j := (chain_b a).
Local Abbreviation nonpop := (nonpop_before a (chain_b a)).

Lemma nonpop_before_0 (r : nat) : nonpop r 0.
Proof. split; [lia|]. intros t Ht. lia. Qed.

Lemma nonpop_before_S (r k : nat) (x : string) :
  a !! r = Some x → is_Some (b2j !! x) → nonpop r k → nonpop (S r) (S k).
Proof.
  intros Hx Hs [Hk H]. split; [lia|]. intros [|t] Ht.
  - exists x. by replace (S r - 1 - 0) with r by lia.
  - replace (S r - 1 - S t) with (r - 1 - t) by lia. apply H. lia.
Qed.

Lemma nonpop_before_pred (r k : nat) : nonpop (S r) (S k) → nonpop r k.
Proof.
  intros [Hk H]. split; [lia|]. intros t Ht.
  replace (r - 1 - t) with (S r - 1 - S t) by lia. apply H. lia.
Qed.

Lemma nonpop_before_last (r k : nat) :
  nonpop (S r) (S k) → ∃ x, a !! r = Some x ∧ is_Some (b2j !! x).
Proof.
  intros [_ H]. destruct (H 0) as (x & Hx & Hs); [lia|].
  exists x. by replace (S r - 1 - 0) with r in Hx by lia.
Qed.

Lemma j2lenget_pred_runs (i j : nat) (j2len : gmap nat nat) :
  j2len_runs a i j2len → nonpop i (j2lenget_pred j2len j) ∧ nonpop j (j2lenget_pred j2len j).
Proof.
  intros H. destruct j as [|j]; simpl; [split; apply nonpop_before_0|].
  destruct (j2len !! j) as [k|] eqn:E; simpl; [by apply H|split; apply nonpop_before_0].
Qed.

Lemma flm_row_diag (i : nat) (x : string) (j2len : gmap nat nat) (js : list nat)
    (newj2len : gmap nat nat) (best : block) :
  a !! i = Some x → is_Some (b2j !! x) →
  j2len_runs a i j2len →
  (∀ k, nonpop i k → 1 ≤ i → k ≤ default 0 (j2len !! (i - 1))) →
  StronglySorted lt js → (∀ j, j ∈ js → a !! j = Some x) →
  j2len_runs a (S i) newj2len →
  i ∈ js ∨ diag_done a i newj2len best →
  best.1.1 = best.1.2 → best.1.1 + best.2 ≤ S i →
  (∀ i' k, i' ≤ i → nonpop i' k → k ≤ best.2) →
  let res := flm_row 0 (length a) i j2len js newj2len best in
  j2len_runs a (S i) res.1 ∧ diag_done a i res.1 res.2 ∧ diag_best a (S i) res.2.
Proof.
  intros Hx Hs HI1 HI2. revert newj2len best.
  induction js as [|j js IH]; intros newj2len best Hsorted Hjs HN HQ HB3 HB5 HB4.
  - simpl. destruct HQ as [HQ|HQ]; [by apply elem_of_nil in HQ|].
    split_and!; try done. unfold diag_best. split_and!; try done. intros i' k Hi' Hk.
    destruct (decide (i' = S i)) as [->|]; [by apply HQ|]. apply (HB4 i'); [lia|done].
  - cbn [flm_row]. case_bool_decide; [lia|].
    assert (Hj : a !! j = Some x) by (apply Hjs; left).
    case_bool_decide as Hlen; [apply lookup_lt_Some in Hj; lia|].
    apply StronglySorted_inv in Hsorted as [Hsorted Hlt].
    destruct (j2lenget_pred_runs i j j2len HI1) as [Hk0i Hk0j].
    pose proof (nonpop_before_S i _ x Hx Hs Hk0i) as Hki.
    pose proof (nonpop_before_S j _ x Hj Hs Hk0j) as Hkj.
    replace (S (j2lenget_pred j2len j)) with (j2lenget_pred j2len j + 1) in Hki, Hkj by lia.
    set (k := j2lenget_pred j2len j + 1) in *.
    assert (HN' : j2len_runs a (S i) (<[j := k]> newj2len)).
    { intros j' k'. destruct (decide (j' = j)) as [->|Hne].
      - rewrite lookup_insert_eq. by intros [= <-].
      - rewrite lookup_insert_ne by done. apply HN. }
    assert (Hjs' : ∀ j', j' ∈ js → a !! j' = Some x) by (intros; apply Hjs; by right).
    destruct (decide (j = i)) as [->|Hne].
    + (* the diagonal entry *)
      assert (Hdiag : ∀ k', nonpop (S i) k' → k' ≤ k).
      { intros [|k'] Hk'; [lia|]. apply nonpop_before_pred in Hk'.
        unfold k. destruct i as [|i']; [destruct Hk'; lia|].
        specialize (HI2 k' Hk'). simpl in HI2 |- *. rewrite Nat.sub_0_r in HI2. lia. }
      apply IH; try done.
      * right. intros k' Hk'. rewrite lookup_insert_eq. simpl.
        specialize (Hdiag k' Hk'). case_bool_decide; simpl; lia.
      * by case_bool_decide.
      * destruct Hki as [Hki _]. case_bool_decide; simpl; lia.
      * intros i' k' Hi' Hk'. specialize (HB4 i' k' Hi' Hk').
        case_bool_decide; simpl; lia.
    + (* off the diagonal the best match does not change *)
      assert (Hle : k ≤ best.2).
      { destruct (decide (j < i)) as [Hji|Hji].
        - apply (HB4 (S j)); [lia|done].
        - destruct HQ as [HQ|HQ].
          + apply elem_of_cons in HQ as [->|HQ]; [done|].
            rewrite Forall_forall in Hlt. apply Hlt in HQ. lia.
          + by apply HQ. }
      rewrite bool_decide_eq_false_2 by lia.
      apply IH; try done.
      destruct HQ as [HQ|HQ].
      * apply elem_of_cons in HQ as [->|HQ]; [done|by left].
      * right. intros k' Hk'. rewrite lookup_insert_ne by done. by apply HQ.
Qed.

Lemma flm_rows_diag (c r : nat) (j2len : gmap nat nat) (best : block) :
  r + c ≤ length a →
  j2len_runs a r j2len →
  (∀ k, nonpop r k → 1 ≤ r → k ≤ default 0 (j2len !! (r - 1))) →
  diag_best a r best →
  diag_best a (r + c) (flm_rows a b2j 0 (length a) (seq r c) j2len best).
Proof.
  revert r j2len best. induction c as [|c IH]; intros r j2len best Hr HI1 HI2 HB.
  - simpl. by rewrite Nat.add_0_r.
  - cbn [seq flm_rows].
    destruct (lookup_lt_is_Some_2 a r) as [x Hx]; [lia|].
    rewrite Hx. cbn [mbind option_bind].
    destruct HB as (HB3 & HB5 & HB4).
    replace (r + S c) with (S r + c) by lia.
    destruct (b2j !! x) as [js|] eqn:Ejs; cbn [default]; unfold id.
    + assert (H1 : is_Some (b2j !! x)) by (by rewrite Ejs).
      assert (H2 : ∀ j, j ∈ js → a !! j = Some x).
      { intros j Hj. by apply (chain_b_elem a x js j Ejs). }
      assert (H3 : j2len_runs a (S r) ∅).
      { intros j k. by rewrite lookup_empty. }
      assert (H4 : r ∈ js ∨ diag_done a r ∅ best).
      { left. by apply (chain_b_elem a x js r Ejs). }
      assert (H5 : best.1.1 + best.2 ≤ S r) by lia.
      pose proof (flm_row_diag r x j2len js ∅ best Hx H1 HI1 HI2
                    (chain_b_sorted _ _ _ Ejs) H2 H3 H4 HB3 H5 HB4) as Hrow.
      cbv zeta in Hrow.
      destruct (flm_row 0 (length a) r j2len js ∅ best) as [newj2len best'].
      destruct Hrow as (HN & HD & HB').
      apply IH; [lia|done| |done].
      intros k Hk _. replace (S r - 1) with r by lia. by apply HD.
    + cbn [flm_row]. apply IH; [lia| | |].
      * intros j k. by rewrite lookup_empty.
      * intros [|k] Hk _; [lia|]. apply nonpop_before_last in Hk as (y & Hy & Hs).
        rewrite Hx in Hy. injection Hy as <-. rewrite Ejs in Hs. by destruct Hs.
      * split_and!; [done|lia|]. intros i [|k] Hi Hk; [lia|].
        destruct (decide (i = S r)) as [->|]; [|apply (HB4 i); [lia|done]].
        apply nonpop_before_last in Hk as (y & Hy & Hs).
        rewrite Hx in Hy. injection Hy as <-. rewrite Ejs in Hs. by destruct Hs.
Qed.

Lemma same_at_diag (i : nat) : i < length a → same_at a a i i = true.
Proof.
  intros Hi. unfold same_at. destruct (lookup_lt_is_Some_2 a i Hi) as [x ->].
  by apply bool_decide_eq_true.
Qed.

Lemma extend_left_diag (i k : nat) :
  i ≤ length a → extend_left a a 0 0 i i k = (0, 0, k + i).
Proof.
  revert k. induction i as [|i IH]; intros k Hi; cbn [extend_left].
  - by rewrite Nat.add_0_r.
  - rewrite same_at_diag by lia.
    rewrite !bool_decide_eq_true_2 by lia. cbn [andb].
    rewrite IH by lia. f_equal. lia.
Qed.

Lemma extend_right_diag (n k : nat) :
  k + n = length a → extend_right a a (length a) (length a) n 0 0 k = (0, 0, length a).
Proof.
  revert k. induction n as [|n IH]; intros k Hk; cbn [extend_right].
  - f_equal. lia.
  - rewrite same_at_diag by (simpl; lia).
    rewrite !bool_decide_eq_true_2 by (simpl; lia). cbn [andb].
    apply IH. lia.
Qed.

Lemma find_longest_match_same :
  find_longest_match a a b2j 0 (length a) 0 (length a) = (0, 0, length a).
Proof.
  unfold find_longest_match. rewrite Nat.sub_0_r.
  pose proof (flm_rows_diag (length a) 0 ∅ (0, 0, 0)) as H.
  destruct (flm_rows a b2j 0 (length a) (seq 0 (length a)) ∅ (0, 0, 0))
    as [[besti bestj] bestsize].
  destruct H as (H3 & H5 & _).
  - simpl. lia.
  - intros j k. by rewrite lookup_empty.
  - intros k _ ?. lia.
  - split_and!; [done|simpl; lia|]. intros i k Hi [Hk _]. simpl. lia.
  - simpl in H3, H5. subst bestj.
    rewrite extend_left_diag by lia.
    apply extend_right_diag. simpl. lia.
Qed.

Lemma raw_blocks_same :
  raw_blocks a a = if bool_decide (length a = 0) then [] else [(0, 0, length a)].
Proof.
  unfold raw_blocks. replace (2 * length a + 1) with (S (2 * length a)) by lia.
  cbn [blocks_loop]. rewrite find_longest_match_same.
  case_bool_decide as Hn.
  - by destruct (2 * length a).
  - rewrite !(bool_decide_eq_false_2 (_ < _)) by lia. cbn [andb].
    by destruct (2 * length a).
Qed.

Lemma ratio_same : (ratio a a == 1)%Q.
Proof.
  unfold ratio. change (sum_list _) with (size_sum (get_matching_blocks a a)).
  rewrite matching_blocks_sum, raw_blocks_same.
  case_bool_decide as Hn.
  - rewrite Hn. reflexivity.
  - change (size_sum [_]) with (length a + 0). unfold calculate_ratio.
    destruct (length a + length a) as [|m] eqn:E; [lia|].
    unfold Qeq. cbn [Qnum Qden]. rewrite Zpos_of_nat_S. lia.
Qed.
End identical.

(** ** [semantic_overlap] *)

(** C8, as stated, fails: two empty strings split into the same (empty)
    token sequence, and their overlap is 0, not 100. *)
Lemma empty_arguments_overlap :
  split "" = split "" ∧ semantic_overlap "" "" = 0%Q ∧ ¬ (semantic_overlap "" "" == 100)%Q.
Proof. split; [reflexivity|]. split; [reflexivity|]. discriminate. Qed.

(** C8, amended: the overlap is 0 whenever either argument is the empty
    string; it is 100 whenever both arguments are non-empty and split into
    the same token sequence; it always lies between 0 and 100. *)
Theorem semantic_overlap_spec (a b : string) :
  (a = ""%string ∨ b = ""%string → semantic_overlap a b = 0%Q)
  ∧ (a ≠ ""%string → b ≠ ""%string → split a = split b →
       (semantic_overlap a b == 100)%Q)
  ∧ (0 <= semantic_overlap a b <= 100)%Q.
Proof.
  unfold semantic_overlap. split_and!.
  - intros [->| ->]; [done|]. by rewrite orb_true_r.
  - intros Ha Hb Hs.
    rewrite !bool_decide_eq_false_2 by done. cbn [orb].
    rewrite Hs, ratio_same. reflexivity.
  - destruct (bool_decide (a = ""%string) || bool_decide (b = ""%string)); [done|].
    pose proof (ratio_bounds (split a) (split b)). lra.
  - destruct (bool_decide (a = ""%string) || bool_decide (b = ""%string)); [done|].
    pose proof (ratio_bounds (split a) (split b)). lra.
Qed.

Lemma semantic_overlap_spec_witness :
  "CRACK  FOUND"%string ≠ ""%string ∧ "CRACK FOUND"%string ≠ ""%string
  ∧ split "CRACK  FOUND" = split "CRACK FOUND"
  ∧ (semantic_overlap "CRACK  FOUND" "CRACK FOUND" == 100)%Q.
Proof.
  assert (H1 : "CRACK  FOUND"%string ≠ ""%string) by discriminate.
  assert (H2 : "CRACK FOUND"%string ≠ ""%string) by discriminate.
  assert (H3 : split "CRACK  FOUND" = split "CRACK FOUND") by reflexivity.
  split; [exact H1|]. split; [exact H2|]. split; [exact H3|].
  exact (proj1 (proj2 (semantic_overlap_spec "CRACK  FOUND" "CRACK FOUND")) H1 H2 H3).
Defined.
